(** * pivotaljs: the request executor [api] and the paginator [paginated]

    A shallow embedding of [src/index.js].  JavaScript objects are finite
    maps from property names to values; the callbacks that the library
    receives are the environment, which is made explicit: the transport
    answers the n-th round trip and the caller's [onPage] decides what to
    do with the n-th continuation.

    Numbers are JavaScript numbers restricted to the integers (the data
    model types [offset], [limit], [returned] and [total] as integers)
    and NaN.  Sums and differences are the exact ones: they are the
    source's, which are computed in double precision, as long as the
    operands and the result are integers of magnitude at most 2^53; the
    theorems that depend on a sum or a difference bound the values
    accordingly ([small]).  A string in the place of a number would have
    to be read as a numeral; that is outside the embedding and shows up
    as the reaction [NonInteger] and the ending [Unmodelled].  Values
    are immutable: a caller that rewrites the response object it was
    handed is outside the embedding as well. *)

From Stdlib Require Import ZArith String List Sorted Lia.
From stdpp Require Import base option gmap strings list fin_maps.

Local Open Scope string_scope.
Local Open Scope Z_scope.
Local Open Scope list_scope.

(** ** JavaScript values *)

#[local] Set Warnings "-register-all".

Inductive value : Type :=
| VUndefined
| VNull
| VBool (b : bool)
| VNum (n : Z)
| VStr (s : string)
| VArr (items : list value)
| VObj (props : gmap string value).

(** ToBoolean: [undefined], [null], [false], [0] and the empty string are
    falsy, every object and array is truthy. *)
Definition truthy (v : value) : bool :=
  match v with
  | VUndefined | VNull => false
  | VBool b => b
  | VNum n => negb (n =? 0)
  | VStr s => match s with EmptyString => false | String _ _ => true end
  | VArr _ | VObj _ => true
  end.

(** [a || b] *)
Definition js_or (a b : value) : value := if truthy a then a else b.

(** [v.k] for a property name [k] that is no built-in of strings or
    arrays: reading a property of [undefined] or [null] throws a
    TypeError ([None]); a missing property reads as [undefined]. *)
Definition get (v : value) (k : string) : option value :=
  match v with
  | VUndefined | VNull => None
  | VObj props => Some (default VUndefined (props !! k))
  | VBool _ | VNum _ | VStr _ | VArr _ => Some VUndefined
  end.

Definition as_int (v : value) : option Z :=
  match v with VNum n => Some n | _ => None end.

(** The numbers of the embedding: the integers and NaN. *)
Inductive number : Type :=
| Int (z : Z)
| NaN.

(** ToNumber, as the operands of [-] undergo it: [undefined] and an
    object (whose string form is no numeral) give NaN, [null] gives 0,
    booleans give 0 and 1.  A string, or an array (which is read through
    its string form), would have to be parsed: [None]. *)
Definition to_number (v : value) : option number :=
  match v with
  | VUndefined => Some NaN
  | VNull => Some (Int 0)
  | VBool b => Some (Int (if b then 1 else 0))
  | VNum n => Some (Int n)
  | VObj _ => Some NaN
  | VStr _ | VArr _ => None
  end.

(** [offset + v] for a number [offset], as [offset += v] computes it.
    With a string or an array the result is a string that may be a
    numeral: [None].  With an object it is the string [offset] followed
    by [[object Object]], which is no numeral; the one place that reads
    it is the subtraction in the continuation, where it counts as NaN. *)
Definition plus (offset : Z) (v : value) : option number :=
  match v with
  | VStr _ | VArr _ => None
  | VObj _ => Some NaN
  | VUndefined | VNull | VBool _ | VNum _ =>
      n ← to_number v;
      Some (match n with Int r => Int (offset + r) | NaN => NaN end)
  end.

(** The integers on which the embedding's arithmetic is the source's:
    sums and differences of two of them have magnitude at most 2^53 and
    are exact in double precision. *)
Definition small (z : Z) : Prop := - 2 ^ 52 ≤ z ≤ 2 ^ 52.

(** [_.extend(dst, src)] of underscore: every property of [src] is copied
    onto [dst], so [src] wins on a common key; an [undefined] source
    copies nothing. *)
Definition extend (dst : gmap string value) (src : option (gmap string value))
  : gmap string value :=
  match src with
  | Some s => s ∪ dst
  | None => dst
  end.

(** An argument in callback position: left out, given as something that
    is no function, or a function. *)
Inductive callable : Type :=
| Absent
| NotFunction (v : value)
| Function.

(** [_.isFunction(f)] *)
Definition isFunction (f : callable) : bool :=
  match f with Function => true | Absent | NotFunction _ => false end.

(** ** The [Pivotal] object *)

Record Pivotal : Type := { apiToken : value; baseUrl : string }.

Definition new_Pivotal (token : value) : Pivotal :=
  {| apiToken := token;
     baseUrl := "https://www.pivotaltracker.com/services/v5/" |}.

(** ** The transport: the [request] library

    [request(opts, function(err, response, result) ...)] calls back once
    per round trip: with the transport error alone when the round trip
    failed, with [null], the response and its parsed body otherwise,
    whatever the status code. *)
Inductive transport_outcome : Type :=
| TransportFailure (message : string)
| TransportSuccess (status : Z) (body : value).

Definition transport_error (message : string) : value :=
  VObj {[ "message" := VStr message ]}.

Definition request_callback_args (o : transport_outcome)
  : value * value * value :=
  match o with
  | TransportFailure message =>
      (transport_error message, VUndefined, VUndefined)
  | TransportSuccess status body =>
      (VNull, VObj {[ "statusCode" := VNum status; "body" := body ]}, body)
  end.

(** ** [Pivotal.prototype.api] *)

(** The defaults of a request. *)
Definition api_defaults (this : Pivotal) (method path : string)
  : gmap string value :=
  {[ "method" := VStr method;
     "url" := VStr (String.append (baseUrl this) path);
     "json" := VBool true;
     "headers" := VObj {[ "X-TrackerToken" := apiToken this ]} ]}.

(** The options object handed to [request]:
    [_.extend({method, url, json, headers}, options)]. *)
Definition api_opts (this : Pivotal) (method path : string)
    (options : option (gmap string value)) : gmap string value :=
  extend (api_defaults this method path) options.

(** The function passed to [request]: the calls it makes to [callback],
    each with its two arguments. *)
Definition api_on_reply (callback : callable) (err response result : value)
  : list (value * value) :=
  if isFunction callback then [(err, result)] else [].

(** One round trip of [api], from the transport's outcome to the calls
    of [callback]. *)
Definition api_round_trip (callback : callable) (o : transport_outcome)
  : list (value * value) :=
  let '(err, response, result) := request_callback_args o in
  api_on_reply callback err response result.

(** [api(method, path, options, callback)] against a transport that
    answers the request [opts] with [respond opts]: the options handed
    to [request] and the calls made to [callback]. *)
Definition api (this : Pivotal) (method path : string)
    (options : option (gmap string value)) (callback : callable)
    (respond : gmap string value → transport_outcome)
  : gmap string value * list (value * value) :=
  let opts := api_opts this method path options in
  (opts, api_round_trip callback (respond opts)).

(** ** [Pivotal.prototype.paginated] *)

(** The paginator's own query parameters. *)
Definition paginated_defaults (offset limit : Z) : gmap string value :=
  {[ "offset" := VNum offset;
     "limit" := VNum limit;
     "envelope" := VBool true ]}.

(** The query of one request: [_.extend({offset, limit, envelope: true},
    options)]. *)
Definition paginated_qs (offset limit : Z)
    (options : option (gmap string value)) : gmap string value :=
  extend (paginated_defaults offset limit) options.

(** What a piece of the paginator does when it runs. *)
Inductive reaction : Type :=
| Quiet                                  (* returns, nothing was called *)
| Raise                                  (* a TypeError is thrown *)
| NonInteger                             (* a numeral would have to be read *)
| Complete (args : list value)           (* [completed(args)] *)
| Page (data pg : value) (offset : option number)
    (* [callback(null, data, pg, k)]; [offset] is the variable that the
       continuation [k] closes over, [None] once it is a string *)
| Next (offset limit : Z).               (* [that.paginated(path, offset, limit, ...)] *)

(** [f && f(...)]: nothing when [f] is falsy, the call when it is a
    function, a TypeError when it is truthy and no function. *)
Definition guarded (f : callable) (call : reaction) : reaction :=
  match f with
  | Absent => Quiet
  | NotFunction v => if truthy v then Raise else Quiet
  | Function => call
  end.

(** The [function(err, res)] that [paginated] passes to [api]. *)
Definition on_response (offset : Z) (callback completed : callable)
    (err res : value) : reaction :=
  (* if (err || !res.pagination) *)
  match (if truthy err then Some true
         else pg ← get res "pagination"; Some (negb (truthy pg))) with
  | None => Raise
  | Some true =>
      (* completed && completed(err || res) *)
      guarded completed (Complete [js_or err res])
  | Some false =>
      match get res "pagination", get res "data" with
      | Some pg, Some data =>
          match get pg "returned" with
          | Some returned =>
              (* offset += res.pagination.returned *)
              let offset := plus offset returned in
              (* callback && callback(null, res.data, res.pagination, k) *)
              guarded callback (Page data pg offset)
          | None => Raise
          end
      | _, _ => Raise
      end
  end.

(** The continuation [function(cont)] handed to [callback]; [offset] is
    the advanced offset and [pg] the [res.pagination] it closes over. *)
Definition continuation (offset : option number) (limit : Z) (pg : value)
    (completed : callable) (cont : value) : reaction :=
  if truthy cont then
    match get pg "total" with
    | None => Raise
    | Some t =>
        (* var left = res.pagination.total - offset *)
        match to_number t, offset with
        | Some (Int total), Some (Int offset) =>
            let left := total - offset in
            if 0 <? left then Next offset (Z.min left limit)
            else guarded completed (Complete [])
        | Some NaN, _ | _, Some NaN =>
            (* left is NaN, and NaN > 0 is false *)
            guarded completed (Complete [])
        | _, _ => NonInteger
        end
    end
  else guarded completed (Complete []).

(** ** Sessions *)

(** The environment of a session: the transport's outcome for the n-th
    round trip given the options passed to [request], and what the
    caller's [onPage] does with the n-th continuation ([None]: it never
    invokes it, [Some v]: it invokes it once with [v]). *)
Record environment : Type := {
  transport : nat → gmap string value → transport_outcome;
  on_page : nat → value → value → option value
}.

Inductive event : Type :=
| Request (offset limit : Z) (opts : gmap string value)
    (* the invocation [paginated(path, offset, limit, ...)] calls
       [request(opts, ...)] *)
| OnPage (err data pg : value)           (* [callback(err, data, pg, k)] *)
| OnComplete (args : list value).        (* [completed(args)] *)

Inductive ending : Type :=
| Settled                                (* nothing is pending any more *)
| Raised                                 (* a TypeError was thrown *)
| Unmodelled                             (* a numeral would have to be read *)
| OutOfFuel.

(** One invocation of [paginated] up to its recursive call. *)
Inductive round_result : Type :=
| RStop (evs : list event) (e : ending)
| RNext (evs : list event) (offset limit : Z).

(** What follows the handler's reaction [r] within the round: a page
    goes to the caller, whose answer runs the continuation.  The handler
    never asks for a next request itself and the continuation never
    delivers a page; those cases end the round. *)
Definition after_reaction (r : reaction) (limit : Z) (completed : callable)
    (decide_page : value → value → option value) : round_result :=
  match r with
  | Quiet => RStop [] Settled
  | Raise => RStop [] Raised
  | NonInteger => RStop [] Unmodelled
  | Complete args => RStop [OnComplete args] Settled
  | Next o l => RStop [] Settled
  | Page data pg offset =>
      match decide_page data pg with
      | None => RStop [OnPage VNull data pg] Settled
      | Some cont =>
          match continuation offset limit pg completed cont with
          | Quiet => RStop [OnPage VNull data pg] Settled
          | Raise => RStop [OnPage VNull data pg] Raised
          | NonInteger => RStop [OnPage VNull data pg] Unmodelled
          | Complete args =>
              RStop [OnPage VNull data pg; OnComplete args] Settled
          | Next o l => RNext [OnPage VNull data pg] o l
          | Page _ _ _ => RStop [OnPage VNull data pg] Settled
          end
      end
  end.

Definition with_request (ev : event) (r : round_result) : round_result :=
  match r with
  | RStop evs e => RStop (ev :: evs) e
  | RNext evs o l => RNext (ev :: evs) o l
  end.

(** The options that [paginated] hands to [request] through
    [this.api('get', path, {qs: ...}, ...)]: the first component of the
    call of [api] in [round]. *)
Definition paginated_opts (this : Pivotal) (path : string) (offset limit : Z)
    (options : option (gmap string value)) : gmap string value :=
  api_opts this "get" path
    (Some {[ "qs" := VObj (paginated_qs offset limit options) ]}).

(** The body of [paginated]: the call of [api] with the handler, which
    is a function, then the handler on what the transport delivers. *)
Definition round (this : Pivotal) (env : environment) (n : nat)
    (path : string) (offset limit : Z) (options : option (gmap string value))
    (callback completed : callable) : round_result :=
  let '(opts, calls) :=
    api this "get" path
      (Some {[ "qs" := VObj (paginated_qs offset limit options) ]})
      Function (transport env n) in
  match calls with
  | [] => RStop [Request offset limit opts] Settled
  | (err, res) :: _ =>
      with_request (Request offset limit opts)
        (after_reaction (on_response offset callback completed err res)
           limit completed (on_page env n))
  end.

(** A session: [paginated] with its recursive calls, one unit of fuel
    per round trip; [n] counts the round trips made so far. *)
Fixpoint paginated (fuel : nat) (this : Pivotal) (env : environment)
    (n : nat) (path : string) (offset limit : Z)
    (options : option (gmap string value)) (callback completed : callable)
  : list event * ending :=
  match fuel with
  | O => ([], OutOfFuel)
  | S fuel' =>
      match round this env n path offset limit options callback completed with
      | RStop evs e => (evs, e)
      | RNext evs o l =>
          let '(tr, e) :=
            paginated fuel' this env (S n) path o l options callback completed
          in (evs ++ tr, e)
      end
  end.

(** ** The paginated wrappers *)

(** [arg || d] for an argument that is left out or an integer. *)
Definition or_default (arg : option Z) (d : Z) : Z :=
  match arg with
  | Some n => if n =? 0 then d else n
  | None => d
  end.

(** ['projects/' + projectId + resource] *)
Definition collection_path (projectId resource : string) : string :=
  String.append "projects/" (String.append projectId resource).

Definition getStories (fuel : nat) (this : Pivotal) (env : environment)
    (projectId : string) (options : option (gmap string value))
    (callback completed : callable) (offset limit : option Z)
  : list event * ending :=
  paginated fuel this env 0 (collection_path projectId "/stories")
    (or_default offset 0) (or_default limit 128) options callback completed.

Definition getActivity (fuel : nat) (this : Pivotal) (env : environment)
    (projectId : string) (options : option (gmap string value))
    (callback completed : callable) (offset limit : option Z)
  : list event * ending :=
  paginated fuel this env 0 (collection_path projectId "/activity")
    (or_default offset 0) (or_default limit 128) options callback completed.

Definition getIterations (fuel : nat) (this : Pivotal) (env : environment)
    (projectId : string) (options : option (gmap string value))
    (callback completed : callable) (offset limit : option Z)
  : list event * ending :=
  paginated fuel this env 0 (collection_path projectId "/iterations")
    (or_default offset 0) (or_default limit 128) options callback completed.

(** ** Reading a trace *)

Definition request_offsets (tr : list event) : list Z :=
  omap (λ ev, match ev with Request o _ _ => Some o | _ => None end) tr.

Definition request_limits (tr : list event) : list Z :=
  omap (λ ev, match ev with Request _ l _ => Some l | _ => None end) tr.

(** [pg.k] as an integer, for the [pg] of a delivered page. *)
Definition page_field (k : string) (pg : value) : option Z :=
  get pg k ≫= as_int.

(** [pg.k] as the number that arithmetic makes of it. *)
Definition page_number (k : string) (pg : value) : option number :=
  get pg k ≫= to_number.

(** The offset after [offset += pg.returned]. *)
Definition advanced (offset : Z) (pg : value) : option number :=
  get pg "returned" ≫= plus offset.

(** A page whose [returned] and [total] are integers within the range
    on which the embedding's arithmetic is the source's. *)
Definition integer_page (pg : value) : Prop :=
  ∃ r T, page_field "returned" pg = Some r ∧ page_field "total" pg = Some T ∧
         small r ∧ small T.

(** An integer page that reports the total [T]. *)
Definition integer_page_of (T : Z) (pg : value) : Prop :=
  integer_page pg ∧ page_field "total" pg = Some T.

Definition pages (tr : list event) : list value :=
  omap (λ ev, match ev with OnPage _ _ pg => Some pg | _ => None end) tr.

Definition page_returns (tr : list event) : list Z :=
  omap (page_field "returned") (pages tr).

Definition page_totals (tr : list event) : list Z :=
  omap (page_field "total") (pages tr).

Definition completions (tr : list event) : list (list value) :=
  omap (λ ev, match ev with OnComplete args => Some args | _ => None end) tr.

Definition sumZ (l : list Z) : Z := foldr Z.add 0 l.

(** ** A server for tests: a collection served by offset and limit *)

Definition collection_page (coll : list value) (qs : value) : value :=
  match get qs "offset" ≫= as_int, get qs "limit" ≫= as_int with
  | Some o, Some l =>
      let items := take (Z.to_nat l) (drop (Z.to_nat o) coll) in
      VObj {[ "data" := VArr items;
              "pagination" :=
                VObj {[ "returned" := VNum (Z.of_nat (length items));
                        "total" := VNum (Z.of_nat (length coll));
                        "offset" := VNum o;
                        "limit" := VNum l ]} ]}
  | _, _ => VObj {[ "kind" := VStr "error" ]}
  end.

Definition collection_server (coll : list value) : environment :=
  {| transport := λ _ opts,
       TransportSuccess 200
         (collection_page coll (default VUndefined (opts !! "qs")));
     on_page := λ _ _ _, Some (VBool true) |}.

(** ** Sessions as derivations

    The traces of [paginated], round by round. *)

Inductive run (this : Pivotal) (env : environment) (path : string)
    (options : option (gmap string value)) (callback completed : callable)
  : nat → Z → Z → list event → ending → Prop :=
| run_out n o l : run this env path options callback completed n o l [] OutOfFuel
| run_stop n o l evs e :
    round this env n path o l options callback completed = RStop evs e →
    run this env path options callback completed n o l evs e
| run_next n o l evs o' l' tr e :
    round this env n path o l options callback completed = RNext evs o' l' →
    run this env path options callback completed (S n) o' l' tr e →
    run this env path options callback completed n o l (evs ++ tr) e.

(** ** Servers and callers for the examples *)

Definition page_body (data : list value) (returned total : Z) : value :=
  VObj {[ "data" := VArr data;
          "pagination" :=
            VObj {[ "returned" := VNum returned; "total" := VNum total ]} ]}.

(** The [pagination] of [page_body]. *)
Definition page_body_pagination (returned total : Z) : value :=
  VObj {[ "returned" := VNum returned; "total" := VNum total ]}.

(** A server whose n-th answer reports [returns n] items of [total], with
    a caller that always continues. *)
Definition reporting_server (returns : nat → Z) (total : Z) : environment :=
  {| transport := λ n _, TransportSuccess 200 (page_body [] (returns n) total);
     on_page := λ _ _ _, Some (VBool true) |}.

(** A server that reports as many items as the query's [limit] asks for,
    of [total], with a caller that always continues. *)
Definition limit_echo_server (total : Z) : environment :=
  {| transport := λ _ opts,
       TransportSuccess 200
         (match get (default VUndefined (opts !! "qs")) "limit" ≫= as_int with
          | Some l => page_body [] l total
          | None => VObj {[ "kind" := VStr "error" ]}
          end);
     on_page := λ _ _ _, Some (VBool true) |}.

(** A server that answers every request with the body [body]. *)
Definition constant_server (body : value) : environment :=
  {| transport := λ _ _, TransportSuccess 200 body;
     on_page := λ _ _ _, Some (VBool true) |}.



(** ** The other wrappers of [api]

    Each takes the transport's answer [respond] to its request and gives
    the options handed to [request] with the calls made to [callback]. *)

(** ['projects/' + projectId + '/stories/' + storyId + rest] *)
Definition story_path (projectId storyId rest : string) : string :=
  collection_path projectId
    (String.append "/stories/" (String.append storyId rest)).

Definition updateStory (this : Pivotal) (projectId storyId : string)
    (params : value) (callback : callable)
    (respond : gmap string value → transport_outcome) :=
  api this "put"
    (collection_path projectId (String.append "/stories/" storyId))
    (Some {[ "json" := params ]}) callback respond.

Definition getStory (this : Pivotal) (storyId : string) (callback : callable)
    (respond : gmap string value → transport_outcome) :=
  api this "get" (String.append "/stories/" storyId) (Some ∅) callback respond.

Definition getProjects (this : Pivotal) (callback : callable)
    (respond : gmap string value → transport_outcome) :=
  api this "get" "/projects" (Some ∅) callback respond.

Definition getStoryActivity (this : Pivotal) (projectId storyId : string)
    (callback : callable) (options : value)
    (respond : gmap string value → transport_outcome) :=
  api this "get" (story_path projectId storyId "/activity")
    (Some {[ "qs" := js_or options (VObj ∅) ]}) callback respond.

Definition getMyActivity (this : Pivotal) (callback : callable)
    (options : value) (respond : gmap string value → transport_outcome) :=
  api this "get" "my/activity"
    (Some {[ "qs" := js_or options (VObj ∅) ]}) callback respond.

Definition getTasks (this : Pivotal) (projectId storyId : string)
    (callback : callable) (respond : gmap string value → transport_outcome) :=
  api this "get" (story_path projectId storyId "/tasks") (Some ∅)
    callback respond.

Definition getMemberships (this : Pivotal) (projectId : string)
    (callback : callable) (respond : gmap string value → transport_outcome) :=
  api this "get" (collection_path projectId "/memberships") (Some ∅)
    callback respond.

Definition getComments (this : Pivotal) (projectId storyId : string)
    (callback : callable) (respond : gmap string value → transport_outcome) :=
  api this "get" (story_path projectId storyId "/comments") (Some ∅)
    callback respond.

Definition getLabels (this : Pivotal) (projectId : string)
    (callback : callable) (respond : gmap string value → transport_outcome) :=
  api this "get" (collection_path projectId "/labels") (Some ∅)
    callback respond.

Definition createLabel (this : Pivotal) (projectId : string) (name : value)
    (callback : callable) (respond : gmap string value → transport_outcome) :=
  api this "post" (collection_path projectId "/labels")
    (Some {[ "body" := VObj {[ "name" := name ]} ]}) callback respond.

Definition createStory (this : Pivotal) (projectId : string) (params : value)
    (callback : callable) (respond : gmap string value → transport_outcome) :=
  api this "post" (collection_path projectId "/stories")
    (Some {[ "body" := params ]}) callback respond.

(** [exportStories]; [stringify] is [querystring.stringify] of Node. *)
Definition exportStories (stringify : value → string) (this : Pivotal)
    (stories : value) (callback : callable)
    (respond : gmap string value → transport_outcome) :=
  api this "post" "stories/export"
    (Some {[ "body" := VStr (stringify (VObj {[ "ids[]" := stories ]})) ]})
    callback respond.

(** ** [Pivotal.prototype.getCurrentIterations] *)

(** The [function(err, iterations)] that it passes to [api]: the calls
    it makes to [callback], each with its list of arguments. *)
Definition on_iterations (callback : callable) (err iterations : value)
  : list (list value) :=
  if isFunction callback then
    if truthy err || negb (truthy iterations)
    then [[err]]
    else [[VBool false; iterations]]
  else [].

Definition getCurrentIterations (this : Pivotal) (projectId : string)
    (callback : callable) (respond : gmap string value → transport_outcome)
  : gmap string value * list (list value) :=
  let '(opts, calls) :=
    api this "get" (collection_path projectId "/iterations")
      (Some {[ "qs" := VObj {[ "scope" := VStr "current";
                               "date_format" := VStr "millis" ]} ]})
      Function respond in
  (opts, flat_map (λ '(err, iterations), on_iterations callback err iterations)
           calls).

(** ** [Pivotal.prototype.postAttachment] *)

(** [k == 'error'], the loose comparison of a value with the string
    ['error']: a string is compared as it is; numbers and booleans are
    compared as numbers, and ['error'] is no number; [undefined] and
    [null] equal no string; an object is compared through its string
    form, which for an array is its elements joined by commas, so that
    an array equals ['error'] exactly when its only element does. *)
Fixpoint kind_is_error (k : value) : bool :=
  match k with
  | VStr s => String.eqb s "error"
  | VArr [x] => kind_is_error x
  | _ => false
  end.

Definition dquote : string := String (Ascii.ascii_of_nat 34) EmptyString.

Inductive attachment_event : Type :=
| ReadFile (filepath : string)                (* [fs.readFile(filepath, ...)] *)
| Upload (opts : gmap string value)           (* [request.post(opts, ...)] *)
| PostComment (opts : gmap string value)      (* [request(opts, ...)] of [api] *)
| AttachmentCallback (args : list value).     (* [callback(args)] *)

(** What the [function(err, res, upload)] of the upload does. *)
Inductive upload_reaction : Type :=
| UploadRaise                                 (* an exception is thrown *)
| UploadReport (args : list value)            (* [callback(err, {...})] *)
| UploadComment (options : gmap string value).
    (* [that.api('post', .../comments, options, callback)] *)

Section Attachment.
(** Functions of the platform: [path.basename], the conversion of a
    value to a string, and [JSON.parse] on a string ([None] when it
    throws). *)
Context (basename : string → string).
Context (to_string : value → string).
Context (json_parse : string → option value).

(** The options of the upload; the URL is spelled out in the source. *)
Definition upload_opts (this : Pivotal) (projectId filepath : string)
    (type contents : value) : gmap string value :=
  {[ "url" :=
       VStr (String.append
               "https://www.pivotaltracker.com/services/v5/projects/"
               (String.append projectId "/uploads"));
     "multipart" :=
       VArr [VObj {[ "Content-Disposition" :=
                       VStr (String.append "form-data; name="
                              (String.append dquote
                              (String.append "file"
                              (String.append dquote
                              (String.append "; filename="
                              (String.append dquote
                              (String.append (basename filepath)
                                 dquote)))))));
                     "Content-Type" := type;
                     "body" := contents ]}];
     "headers" := VObj {[ "X-TrackerToken" := apiToken this ]} ]}.

(** [upload.error + ' (' + upload.general_problem + ')'] *)
Definition upload_problem (error general_problem : value) : value :=
  VStr (String.append (to_string error)
          (String.append " ("
             (String.append (to_string general_problem) ")"))).

Definition on_upload (comment : value) (callback : callable)
    (err upload : value) : upload_reaction :=
  (* if (err || upload.kind == 'error') *)
  match (if truthy err then Some true
         else k ← get upload "kind"; Some (kind_is_error k)) with
  | None => UploadRaise
  | Some true =>
      (* callback(err, {success: false,
                        error: upload ? upload.error + ... : err}) *)
      let error :=
        if truthy upload then
          e ← get upload "error"; p ← get upload "general_problem";
          Some (upload_problem e p)
        else Some err in
      match error, callback with
      | Some error, Function =>
          UploadReport [err; VObj {[ "success" := VBool false;
                                     "error" := error ]}]
      | _, _ => UploadRaise
      end
  | Some false =>
      (* {json: {text: comment, file_attachments: [JSON.parse(upload)]}} *)
      match json_parse (to_string upload) with
      | None => UploadRaise
      | Some attachment =>
          UploadComment
            {[ "json" := VObj {[ "text" := comment;
                                 "file_attachments" := VArr [attachment] ]} ]}
      end
  end.

(** [postAttachment] against what reading the file gives ([read], the
    error and the contents), the outcome of the upload and the
    transport's answer to the comment request. *)
Definition postAttachment (this : Pivotal) (projectId storyId filepath : string)
    (type comment : value) (callback : callable)
    (read : value * value) (uploaded : transport_outcome)
    (respond : gmap string value → transport_outcome)
  : list attachment_event * ending :=
  let contents := read.2 in
  let started :=
    [ReadFile filepath;
     Upload (upload_opts this projectId filepath type contents)] in
  let '(err, res, upload) := request_callback_args uploaded in
  match on_upload comment callback err upload with
  | UploadRaise => (started, Raised)
  | UploadReport args => (started ++ [AttachmentCallback args], Settled)
  | UploadComment options =>
      let '(opts, calls) :=
        api this "post" (story_path projectId storyId "/comments")
          (Some options) callback respond in
      (started ++ PostComment opts
         :: map (λ '(e, r), AttachmentCallback [e; r]) calls, Settled)
  end.
End Attachment.

(** ** Reading a request *)

(** The request [opts] is made with [method] to [path] under the base
    URL, with the instance's token as its only header. *)
Definition authenticated (this : Pivotal) (method path : string)
    (opts : gmap string value) : Prop :=
  opts !! "method" = Some (VStr method) ∧
  opts !! "url" = Some (VStr (String.append (baseUrl this) path)) ∧
  opts !! "headers" = Some (VObj {[ "X-TrackerToken" := apiToken this ]}).

(** ** More ways to read a trace *)

(** The items of the delivered pages, in order. *)
Definition delivered_items (tr : list event) : list value :=
  mjoin (omap (λ ev, match ev with
                     | OnPage _ (VArr items) _ => Some items
                     | _ => None
                     end) tr).

Definition is_completion (ev : event) : bool :=
  match ev with OnComplete _ => true | _ => false end.

(** * Properties *)

(** ** [_.extend] and the two option objects *)

Lemma extend_lookup (dst : gmap string value) (src : option (gmap string value))
    (k : string) :
  extend dst src !! k =
    match src ≫= (λ s, s !! k) with
    | Some v => Some v
    | None => dst !! k
    end.
Proof.
  destruct src as [s|]; simpl; [|done].
  rewrite lookup_union. by destruct (s !! k), (dst !! k).
Qed.

Lemma api_opts_qs (this : Pivotal) (method path : string) (qs : value) :
  api_opts this method path (Some {[ "qs" := qs ]}) !! "qs" = Some qs.
Proof. unfold api_opts. by rewrite extend_lookup. Qed.

(** ** One round *)

Lemma guarded_Function (call : reaction) : guarded Function call = call.
Proof. done. Qed.

Lemma page_field_get (k : string) (pg : value) (z : Z) :
  page_field k pg = Some z → get pg k = Some (VNum z).
Proof.
  unfold page_field. destruct (get pg k) as [[]|]; simpl; congruence.
Qed.

Lemma get_truthy (pg : value) (k : string) :
  truthy pg = true → is_Some (get pg k).
Proof. destruct pg; simpl; try done; eauto. Qed.

Lemma page_field_number (k : string) (pg : value) (z : Z) :
  page_field k pg = Some z → page_number k pg = Some (Int z).
Proof.
  intros H. apply page_field_get in H. unfold page_number. by rewrite H.
Qed.

Lemma page_number_field (k : string) (pg : value) (z z' : Z) :
  page_number k pg = Some (Int z) → page_field k pg = Some z' → z = z'.
Proof.
  intros Hn Hf. apply page_field_number in Hf. congruence.
Qed.

Lemma plus_Int (offset o' : Z) (v : value) :
  plus offset v = Some (Int o') →
  ∃ r, to_number v = Some (Int r) ∧ o' = offset + r.
Proof.
  destruct v as [| |b|n|s|items|props]; simpl; try done.
  - intros [= <-]. eauto.
  - intros [= <-]. eauto.
  - intros [= <-]. eauto.
Qed.

Section Round.
Context (this : Pivotal) (env : environment) (n : nat) (path : string).
Context (offset limit : Z) (options : option (gmap string value)).
Context (callback completed : callable).

Abbreviation opts := (paginated_opts this path offset limit options).

Lemma round_failure (message : string) :
  transport env n opts = TransportFailure message →
  round this env n path offset limit options callback completed =
    with_request (Request offset limit opts)
      (after_reaction (guarded completed (Complete [transport_error message]))
         limit completed (on_page env n)).
Proof. unfold round, api. fold opts. by intros ->. Qed.

Lemma round_success (status : Z) (res : value) :
  transport env n opts = TransportSuccess status res →
  round this env n path offset limit options callback completed =
    with_request (Request offset limit opts)
      (after_reaction (on_response offset callback completed VNull res)
         limit completed (on_page env n)).
Proof. unfold round, api. fold opts. by intros ->. Qed.

Lemma on_response_page (err res pg : value) :
  truthy err = false →
  get res "pagination" = Some pg →
  truthy pg = true →
  ∃ data,
    get res "data" = Some data ∧
    on_response offset callback completed err res =
      guarded callback (Page data pg (advanced offset pg)).
Proof.
  intros Herr Hpg Ht. unfold on_response, advanced. rewrite Herr, Hpg. simpl.
  rewrite Ht. simpl.
  assert (is_Some (get res "data")) as [data Hd].
  { destruct res; simpl in *; try done; eauto. }
  destruct (get_truthy pg "returned" Ht) as [ret Hr].
  exists data. split; [done|]. by rewrite Hd, Hr.
Qed.

Lemma on_response_malformed (err res pg : value) :
  truthy err = false →
  get res "pagination" = Some pg →
  truthy pg = false →
  on_response offset callback completed err res =
    guarded completed (Complete [res]).
Proof.
  intros Herr Hpg Ht. unfold on_response, js_or.
  rewrite Herr, Hpg. simpl. by rewrite Ht.
Qed.

Lemma on_response_error (err res : value) :
  truthy err = true →
  on_response offset callback completed err res =
    guarded completed (Complete [err]).
Proof. intros Herr. unfold on_response, js_or. by rewrite Herr. Qed.

Lemma on_response_no_body (err res : value) :
  truthy err = false →
  get res "pagination" = None →
  on_response offset callback completed err res = Raise.
Proof. intros Herr Hpg. unfold on_response. by rewrite Herr, Hpg. Qed.
End Round.

(** The shapes a round can take. *)

Ltac guard_cases f :=
  destruct f as [|?v|]; simpl;
  repeat match goal with
         | |- context [if truthy ?v then _ else _] => destruct (truthy v); simpl
         end.

Lemma round_next_inv this env n path offset limit options callback completed
    evs o' l' :
  round this env n path offset limit options callback completed
    = RNext evs o' l' →
  ∃ data pg r T,
    evs = [Request offset limit (paginated_opts this path offset limit options);
           OnPage VNull data pg] ∧
    page_number "returned" pg = Some (Int r) ∧
    page_number "total" pg = Some (Int T) ∧
    o' = offset + r ∧ 0 < T - o' ∧ l' = Z.min (T - o') limit.
Proof.
  unfold round, api.
  fold (paginated_opts this path offset limit options).
  destruct (transport env n _) as [message|status res]; simpl.
  - unfold on_response. simpl. by guard_cases completed.
  - unfold on_response. simpl.
    destruct (get res "pagination") as [pg|] eqn:Hpg; simpl; [|done].
    destruct (truthy pg) eqn:Ht; simpl; [|by guard_cases completed].
    destruct (get res "data") as [data|] eqn:Hd; [|done].
    destruct (get pg "returned") as [ret|] eqn:Hr; [|done].
    guard_cases callback; try done.
    destruct (on_page env n data pg) as [cont|]; [|done].
    unfold continuation.
    destruct (truthy cont); [|by guard_cases completed].
    destruct (get pg "total") as [t|] eqn:Htot; [|done].
    destruct (to_number t) as [[T|]|] eqn:HT;
      destruct (plus offset ret) as [[o|]|] eqn:Hplus;
      try (by guard_cases completed).
    destruct (0 <? T - o) eqn:Hlt; [|by guard_cases completed].
    intros [= <- <- <-]. apply plus_Int in Hplus as (r & Hret & ->).
    exists data, pg, r, T.
    apply Z.ltb_lt in Hlt. unfold page_number. rewrite Hr, Htot. done.
Qed.

Lemma round_stop_inv this env n path offset limit options callback completed
    evs e :
  round this env n path offset limit options callback completed
    = RStop evs e →
  e ≠ OutOfFuel ∧
  let req :=
    Request offset limit (paginated_opts this path offset limit options) in
  evs = [req] ∨
  (∃ a, evs = [req; OnComplete [a]] ∧ e = Settled) ∨
  (∃ data pg, evs = [req; OnPage VNull data pg]) ∨
  (∃ data pg,
     evs = [req; OnPage VNull data pg; OnComplete []] ∧ e = Settled ∧
     ((∃ c, on_page env n data pg = Some c ∧ truthy c = false) ∨
      (∃ r T, page_number "returned" pg = Some (Int r) ∧
              page_number "total" pg = Some (Int T) ∧
              T - (offset + r) ≤ 0) ∨
      page_number "total" pg = Some NaN ∨
      (∃ returned, get pg "returned" = Some returned ∧
                   plus offset returned = Some NaN))).
Proof.
  unfold round, api.
  fold (paginated_opts this path offset limit options).
  destruct (transport env n _) as [message|status res]; simpl.
  - unfold on_response. simpl.
    guard_cases completed; intros [= <- <-]; split; eauto 6.
  - unfold on_response. simpl.
    destruct (get res "pagination") as [pg|] eqn:Hpg; simpl;
      [|intros [= <- <-]; split; eauto].
    destruct (truthy pg) eqn:Ht; simpl;
      [|guard_cases completed; intros [= <- <-]; split; eauto 6].
    destruct (get res "data") as [data|] eqn:Hd;
      [|intros [= <- <-]; split; eauto].
    destruct (get pg "returned") as [ret|] eqn:Hr;
      [|intros [= <- <-]; split; eauto].
    guard_cases callback; try (intros [= <- <-]; split; eauto; fail).
    destruct (on_page env n data pg) as [cont|] eqn:Hc;
      [|intros [= <- <-]; split; eauto 8].
    unfold continuation.
    destruct (truthy cont) eqn:Htc;
      [|guard_cases completed; intros [= <- <-]; split; eauto 12].
    destruct (get pg "total") as [t|] eqn:Htot;
      [|intros [= <- <-]; split; eauto 8].
    assert (page_number "total" pg = to_number t) as Htotal
      by (unfold page_number; by rewrite Htot).
    destruct (to_number t) as [[T|]|] eqn:HT;
      destruct (plus offset ret) as [[o|]|] eqn:Hplus;
      try (intros [= <- <-]; split; eauto 8; fail);
      try (guard_cases completed; intros [= <- <-]; split; eauto 8;
           do 3 right; exists data, pg; split; [done|]; split; [done|];
           eauto 8; fail).
    destruct (0 <? T - o) eqn:Hlt; [done|].
    apply Z.ltb_ge in Hlt. apply plus_Int in Hplus as (r & Hret & ->).
    assert (page_number "returned" pg = Some (Int r))
      by (unfold page_number; by rewrite Hr).
    guard_cases completed; intros [= <- <-]; split; eauto 8.
    do 3 right. exists data, pg. split; [done|]. split; [done|].
    right. left. eauto.
Qed.

(** ** Reading a trace, event by event *)

Lemma request_offsets_request o l opts tr :
  request_offsets (Request o l opts :: tr) = o :: request_offsets tr.
Proof. done. Qed.

Lemma request_offsets_page err data pg tr :
  request_offsets (OnPage err data pg :: tr) = request_offsets tr.
Proof. done. Qed.

Lemma request_offsets_complete args tr :
  request_offsets (OnComplete args :: tr) = request_offsets tr.
Proof. done. Qed.

Lemma request_limits_request o l opts tr :
  request_limits (Request o l opts :: tr) = l :: request_limits tr.
Proof. done. Qed.

Lemma request_limits_page err data pg tr :
  request_limits (OnPage err data pg :: tr) = request_limits tr.
Proof. done. Qed.

Lemma request_limits_complete args tr :
  request_limits (OnComplete args :: tr) = request_limits tr.
Proof. done. Qed.

Lemma page_returns_request o l opts tr :
  page_returns (Request o l opts :: tr) = page_returns tr.
Proof. done. Qed.

Lemma page_returns_page err data pg tr :
  page_returns (OnPage err data pg :: tr) =
    match page_field "returned" pg with
    | Some r => r :: page_returns tr
    | None => page_returns tr
    end.
Proof. unfold page_returns. simpl. by destruct (page_field "returned" pg). Qed.

Lemma page_returns_complete args tr :
  page_returns (OnComplete args :: tr) = page_returns tr.
Proof. done. Qed.

Lemma page_totals_request o l opts tr :
  page_totals (Request o l opts :: tr) = page_totals tr.
Proof. done. Qed.

Lemma page_totals_page err data pg tr :
  page_totals (OnPage err data pg :: tr) =
    match page_field "total" pg with
    | Some t => t :: page_totals tr
    | None => page_totals tr
    end.
Proof. unfold page_totals. simpl. by destruct (page_field "total" pg). Qed.

Lemma page_totals_complete args tr :
  page_totals (OnComplete args :: tr) = page_totals tr.
Proof. done. Qed.

Lemma request_offsets_nil : request_offsets [] = [].
Proof. done. Qed.

Lemma request_limits_nil : request_limits [] = [].
Proof. done. Qed.

Lemma page_returns_nil : page_returns [] = [].
Proof. done. Qed.

Lemma page_totals_nil : page_totals [] = [].
Proof. done. Qed.

Create Rewrite HintDb trace.
#[local] Hint Rewrite
  request_offsets_nil request_limits_nil page_returns_nil page_totals_nil
  request_offsets_request request_offsets_page request_offsets_complete
  request_limits_request request_limits_page request_limits_complete
  page_returns_request page_returns_page page_returns_complete
  page_totals_request page_totals_page page_totals_complete : trace.

#[local] Opaque request_offsets request_limits page_returns page_totals.

Ltac read_trace :=
  repeat (simpl app in *; autorewrite with trace in * );
  repeat match goal with
         | H : page_field _ _ = Some _ |- _ => rewrite ?H in *; clear H
         end.

(** ** Rounds whose pages carry integers *)

Lemma pages_request o l opts tr : pages (Request o l opts :: tr) = pages tr.
Proof. done. Qed.

Lemma pages_page err data pg tr :
  pages (OnPage err data pg :: tr) = pg :: pages tr.
Proof. done. Qed.

Lemma pages_complete args tr : pages (OnComplete args :: tr) = pages tr.
Proof. done. Qed.

Lemma integer_page_fields pg r T :
  integer_page pg →
  page_number "returned" pg = Some (Int r) →
  page_number "total" pg = Some (Int T) →
  page_field "returned" pg = Some r ∧ page_field "total" pg = Some T.
Proof.
  intros (r' & T' & Hr & HT & _) Hnr HnT.
  by rewrite (page_number_field _ _ _ _ Hnr Hr),
             (page_number_field _ _ _ _ HnT HT).
Qed.

Lemma integer_page_not_NaN pg offset :
  integer_page pg →
  page_number "total" pg ≠ Some NaN ∧
  ¬ (∃ returned, get pg "returned" = Some returned ∧
                 plus offset returned = Some NaN).
Proof.
  intros (r & T & Hr & HT & _). split.
  - by rewrite (page_field_number _ _ _ HT).
  - intros (v & Hv & Hplus). apply page_field_get in Hr.
    rewrite Hr in Hv. by injection Hv as <-.
Qed.

Lemma round_next_int this env n path offset limit options callback completed
    evs o' l' tr :
  round this env n path offset limit options callback completed
    = RNext evs o' l' →
  Forall integer_page (pages (evs ++ tr)) →
  ∃ data pg r T,
    evs = [Request offset limit (paginated_opts this path offset limit options);
           OnPage VNull data pg] ∧
    page_field "returned" pg = Some r ∧
    page_field "total" pg = Some T ∧
    o' = offset + r ∧ 0 < T - o' ∧ l' = Z.min (T - o') limit ∧
    Forall integer_page (pages tr).
Proof.
  intros Hr Hint.
  apply round_next_inv in Hr as (d & pg & r & T & -> & Hret & Htot & Hrest).
  cbn [app] in Hint. rewrite pages_request, pages_page in Hint.
  apply Forall_cons in Hint as [Hpg Hint].
  destruct (integer_page_fields pg r T Hpg Hret Htot) as [Hfr HfT].
  exists d, pg, r, T. by destruct Hrest as (? & ? & ?).
Qed.

Lemma round_stop_int this env n path offset limit options callback completed
    evs e :
  round this env n path offset limit options callback completed
    = RStop evs e →
  Forall integer_page (pages evs) →
  let req :=
    Request offset limit (paginated_opts this path offset limit options) in
  evs = [req] ∨
  (∃ a, evs = [req; OnComplete [a]] ∧ e = Settled) ∨
  (∃ data pg, evs = [req; OnPage VNull data pg]) ∨
  (∃ data pg,
     evs = [req; OnPage VNull data pg; OnComplete []] ∧ e = Settled ∧
     ((∃ c, on_page env n data pg = Some c ∧ truthy c = false) ∨
      (∃ r T, page_field "returned" pg = Some r ∧
              page_field "total" pg = Some T ∧
              T - (offset + r) ≤ 0))).
Proof.
  intros Hr Hint. apply round_stop_inv in Hr as [_ Hr]. simpl in Hr.
  destruct Hr as [->|[(a & -> & ->)|[(d & pg & ->)|
    (d & pg & -> & -> & Hwhy)]]]; simpl; eauto 6.
  do 3 right. exists d, pg. split; [done|]. split; [done|].
  rewrite pages_request, pages_page in Hint.
  apply Forall_cons in Hint as [Hpg _].
  destruct Hwhy as [?|[(r & T & Hret & Htot & Hle)|[Hnan|Hnan]]]; [by left|..].
  - right. exists r, T.
    by destruct (integer_page_fields pg r T Hpg Hret Htot).
  - by destruct (integer_page_not_NaN pg offset Hpg).
  - by destruct (integer_page_not_NaN pg offset Hpg).
Qed.

(** ** Sessions, by induction on their rounds *)

Section Sessions.
Context (this : Pivotal) (env : environment) (path : string).
Context (options : option (gmap string value)).
Context (callback completed : callable).

Abbreviation run0 := (run this env path options callback completed).

Lemma paginated_run fuel : ∀ n o l tr e,
  paginated fuel this env n path o l options callback completed = (tr, e) →
  run0 n o l tr e.
Proof.
  induction fuel as [|fuel IH]; intros n o l tr e; simpl.
  - intros [= <- <-]. constructor.
  - destruct (round _ _ _ _ _ _ _ _ _) as [evs e'|evs o' l'] eqn:Hr.
    + intros [= <- <-]. by apply run_stop.
    + destruct (paginated fuel _ _ _ _ _ _ _ _ _) as [tr' e'] eqn:Hp.
      intros [= <- <-]. eapply run_next; eauto.
Qed.

Lemma run_head n o l tr e :
  run0 n o l tr e →
  tr = [] ∨ ∃ opts tr', tr = Request o l opts :: tr'.
Proof.
  destruct 1 as [| n o l evs e Hr | n o l evs o' l' tr e Hr _]; [by left| |].
  - right. apply round_stop_inv in Hr as [_ Hr]. simpl in Hr.
    destruct Hr as [->|[(a & -> & _)|[(d & pg & ->)|(d & pg & -> & _)]]];
      eauto.
  - right. apply round_next_inv in Hr as (d & pg & r & T & -> & _). eauto.
Qed.

Lemma run_offsets_head n o l tr e :
  run0 n o l tr e →
  request_offsets tr = [] ∨ ∃ rest, request_offsets tr = o :: rest.
Proof.
  intros [->|(opts & tr' & ->)]%run_head; [by left|right].
  read_trace. eauto.
Qed.

Lemma run_limits_head n o l tr e :
  run0 n o l tr e →
  request_limits tr = [] ∨ ∃ rest, request_limits tr = l :: rest.
Proof.
  intros [->|(opts & tr' & ->)]%run_head; [by left|right].
  read_trace. eauto.
Qed.

Lemma round_stop_offsets n o l evs e :
  round this env n path o l options callback completed = RStop evs e →
  request_offsets evs = [o] ∧ request_limits evs = [l].
Proof.
  intros Hr. apply round_stop_inv in Hr as [_ Hr]. simpl in Hr.
  by destruct Hr as [->|[(a & -> & _)|[(d & pg & ->)|(d & pg & -> & _)]]].
Qed.

(** Each request after the first is made at the previous offset plus
    what the previous page returned. *)
Lemma run_steps n o l tr e :
  run0 n o l tr e →
  Forall integer_page (pages tr) →
  ∀ i o1 o2,
    request_offsets tr !! i = Some o1 →
    request_offsets tr !! S i = Some o2 →
    ∃ r, page_returns tr !! i = Some r ∧ o2 = o1 + r.
Proof.
  induction 1 as [| n o l evs e Hr | n o l evs o' l' tr e Hr Hrun IH];
    intros Hint i o1 o2 H1 H2.
  - done.
  - apply round_stop_offsets in Hr as [Hr _]. rewrite Hr in H2. done.
  - eapply round_next_int in Hr as
      (d & pg & r & T & -> & Hret & _ & -> & _ & _ & Hint'); [|exact Hint].
    read_trace.
    destruct i as [|i]; simpl in *.
    + injection H1 as <-. exists r. split; [done|].
      apply run_offsets_head in Hrun as [Hnil|[rest Hcons]].
      * by rewrite Hnil in H2.
      * rewrite Hcons in H2. by injection H2 as <-.
    + by apply IH.
Qed.

Lemma run_increasing n o l tr e :
  run0 n o l tr e →
  Forall integer_page (pages tr) →
  Forall (λ r, 0 < r) (page_returns tr) →
  StronglySorted Z.lt (request_offsets tr) ∧
  Forall (λ x, o ≤ x) (request_offsets tr).
Proof.
  induction 1 as [| n o l evs e Hr | n o l evs o' l' tr e Hr Hrun IH];
    intros Hint Hpos.
  - split; constructor.
  - apply round_stop_offsets in Hr as [-> _].
    split; repeat constructor. lia.
  - eapply round_next_int in Hr as
      (d & pg & r & T & -> & Hret & _ & -> & _ & _ & Hint'); [|exact Hint].
    read_trace. apply Forall_cons in Hpos as [Hr Hpos].
    destruct (IH Hint' Hpos) as [Hs Hb]. split.
    + constructor; [done|]. eapply Forall_impl; [exact Hb|]. simpl. lia.
    + constructor; [lia|]. eapply Forall_impl; [exact Hb|]. simpl. lia.
Qed.
End Sessions.

(** ** Sessions that run to exhaustion *)

Section Exhaustion.
Context (this : Pivotal) (env : environment) (path : string).
Context (options : option (gmap string value)).
Context (callback completed : callable).

(** The caller invokes continuations with truthy values only. *)
Hypothesis caller_continues :
  ∀ n data pg c, on_page env n data pg = Some c → truthy c = true.

Abbreviation run1 := (run this env path options callback completed).

Lemma last_complete_tail (ev1 ev2 : event) (tr : list event) args :
  (∀ a, ev2 ≠ OnComplete a) →
  last (ev1 :: ev2 :: tr) = Some (OnComplete args) →
  tr ≠ [] ∧ last tr = Some (OnComplete args).
Proof.
  intros Hne. rewrite !last_cons.
  destruct (last tr) as [x|] eqn:Hl.
  - intros [= ->]. split; [|done]. by intros ->.
  - intros [= ->]. by destruct (Hne args).
Qed.

Lemma integer_pages_of T tr :
  Forall (integer_page_of T) (pages tr) → Forall integer_page (pages tr).
Proof. intros H. eapply Forall_impl; [exact H|]. by intros pg [? _]. Qed.

Lemma run_exhausted_sum T n o l tr e :
  run1 n o l tr e →
  last tr = Some (OnComplete []) →
  Forall (integer_page_of T) (pages tr) →
  Forall2 (λ l r, r ≤ l) (request_limits tr) (page_returns tr) →
  (∀ r, head (page_returns tr) = Some r → r ≤ T - o) →
  o + sumZ (page_returns tr) = T.
Proof.
  induction 1 as [| n o l evs e Hr | n o l evs o' l' tr e Hr Hrun IH];
    intros Hlast Htot Hle Hhead.
  - done.
  - apply round_stop_int in Hr; [|by apply (integer_pages_of T)].
    simpl in Hr.
    destruct Hr as [->|[(a & -> & _)|[(d & pg & ->)|
      (d & pg & -> & _ & [(c & Hc & Hf)|(r & T' & Hret & Htotal & Hex)])]]];
      try done.
    + apply caller_continues in Hc. congruence.
    + rewrite pages_request, pages_page in Htot.
      apply Forall_cons in Htot as [[_ HT] _].
      assert (T' = T) as -> by congruence.
      read_trace. specialize (Hhead r eq_refl). simpl. lia.
  - eapply round_next_int in Hr
      as (d & pg & r & T' & -> & Hret & Htotal & -> & Hpos & -> & _);
      [|by apply (integer_pages_of T)].
    simpl app in Hlast. apply last_complete_tail in Hlast as [Hne Hlast];
      [|done].
    cbn [app] in Htot. rewrite pages_request, pages_page in Htot.
    apply Forall_cons in Htot as [[_ HT] Htot].
    assert (T' = T) as -> by congruence.
    read_trace. apply Forall2_cons in Hle as [Hrl Hle].
    simpl. rewrite Z.add_assoc. apply IH; try done.
    intros r' Hr'.
    apply run_limits_head in Hrun as Hl.
    destruct Hl as [Hl|[rest Hl]].
    + rewrite Hl in Hle. apply Forall2_nil_inv_l in Hle.
      by rewrite Hle in Hr'.
    + rewrite Hl in Hle. apply head_Some in Hr' as [rs Hr'].
      rewrite Hr' in Hle. apply Forall2_cons in Hle as [Hle _]. lia.
Qed.

Lemma run_exhausted_final T n o l tr e :
  run1 n o l tr e →
  last tr = Some (OnComplete []) →
  Forall (integer_page_of T) (pages tr) →
  Forall2 (λ l r, r ≤ l) (request_limits tr) (page_returns tr) →
  ∃ o_last l_last,
    last (request_offsets tr) = Some o_last ∧
    last (request_limits tr) = Some l_last ∧
    T - o_last ≤ l_last.
Proof.
  induction 1 as [| n o l evs e Hr | n o l evs o' l' tr e Hr Hrun IH];
    intros Hlast Htot Hle.
  - done.
  - apply round_stop_int in Hr; [|by apply (integer_pages_of T)].
    simpl in Hr.
    destruct Hr as [->|[(a & -> & _)|[(d & pg & ->)|
      (d & pg & -> & _ & [(c & Hc & Hf)|(r & T' & Hret & Htotal & Hex)])]]];
      try done.
    + apply caller_continues in Hc. congruence.
    + rewrite pages_request, pages_page in Htot.
      apply Forall_cons in Htot as [[_ HT] _].
      assert (T' = T) as -> by congruence.
      read_trace. apply Forall2_cons in Hle as [Hle _].
      exists o, l. repeat split; try done. lia.
  - eapply round_next_int in Hr
      as (d & pg & r & T' & -> & Hret & Htotal & -> & Hpos & -> & _);
      [|by apply (integer_pages_of T)].
    simpl app in Hlast. apply last_complete_tail in Hlast as [Hne Hlast];
      [|done].
    cbn [app] in Htot. rewrite pages_request, pages_page in Htot.
    apply Forall_cons in Htot as [[_ HT] Htot].
    read_trace. apply Forall2_cons in Hle as [Hrl Hle].
    destruct (IH Hlast Htot Hle) as (o_last & l_last & Ho & Hl & Hfin).
    exists o_last, l_last. rewrite !last_cons, Ho, Hl. done.
Qed.

Lemma run_complete_settled n o l tr e args :
  run1 n o l tr e → last tr = Some (OnComplete args) → e = Settled.
Proof.
  induction 1 as [| n o l evs e Hr | n o l evs o' l' tr e Hr Hrun IH];
    intros Hlast.
  - done.
  - apply round_stop_inv in Hr as [_ Hr]. simpl in Hr.
    by destruct Hr as [->|[(a & -> & ->)|[(d & pg & ->)|
      (d & pg & -> & -> & _)]]].
  - apply round_next_inv in Hr as (d & pg & r & T' & -> & _).
    simpl app in Hlast. apply last_complete_tail in Hlast as [Hne Hlast];
      [|done].
    by apply IH.
Qed.
End Exhaustion.

(** ** Running a round forwards *)

Lemma paginated_S fuel this env n path o l options callback completed :
  paginated (S fuel) this env n path o l options callback completed =
    match round this env n path o l options callback completed with
    | RStop evs e => (evs, e)
    | RNext evs o' l' =>
        let '(tr, e) :=
          paginated fuel this env (S n) path o' l' options callback completed
        in (evs ++ tr, e)
    end.
Proof. done. Qed.

Lemma continuation_falsy offset limit pg completed cont :
  truthy cont = false →
  continuation offset limit pg completed cont = guarded completed (Complete []).
Proof. unfold continuation. by intros ->. Qed.

Lemma continuation_truthy offset limit pg completed cont total :
  truthy cont = true →
  page_field "total" pg = Some total →
  continuation (Some (Int offset)) limit pg completed cont =
    if 0 <? total - offset then Next offset (Z.min (total - offset) limit)
    else guarded completed (Complete []).
Proof.
  unfold continuation. intros -> Ht.
  by rewrite (page_field_get _ _ _ Ht).
Qed.

Lemma advanced_Int offset pg r :
  page_field "returned" pg = Some r →
  advanced offset pg = Some (Int (offset + r)).
Proof.
  intros Hr. unfold advanced. by rewrite (page_field_get _ _ _ Hr).
Qed.

Lemma round_page this env n path offset limit options callback completed
    status res pg :
  transport env n (paginated_opts this path offset limit options)
    = TransportSuccess status res →
  get res "pagination" = Some pg →
  truthy pg = true →
  ∃ data,
    get res "data" = Some data ∧
    round this env n path offset limit options callback completed =
      with_request
        (Request offset limit (paginated_opts this path offset limit options))
        (after_reaction
           (guarded callback (Page data pg (advanced offset pg)))
           limit completed (on_page env n)).
Proof.
  intros Ht Hpg Htr.
  destruct (on_response_page offset callback completed VNull res pg)
    as (data & Hd & Hon); try done.
  exists data. split; [done|].
  by rewrite (round_success _ _ _ _ _ _ _ _ _ _ _ Ht), Hon.
Qed.

(** A delivered page whose continuation the caller invokes. *)
Lemma round_delivered this env n path offset limit options
    status res pg r T data cont :
  transport env n (paginated_opts this path offset limit options)
    = TransportSuccess status res →
  get res "pagination" = Some pg →
  truthy pg = true →
  get res "data" = Some data →
  page_field "returned" pg = Some r →
  page_field "total" pg = Some T →
  on_page env n data pg = Some cont →
  round this env n path offset limit options Function Function =
    let req :=
      Request offset limit (paginated_opts this path offset limit options) in
    if truthy cont && (0 <? T - (offset + r))
    then RNext [req; OnPage VNull data pg]
           (offset + r) (Z.min (T - (offset + r)) limit)
    else RStop [req; OnPage VNull data pg; OnComplete []] Settled.
Proof.
  intros Ht Hpg Htr Hd Hr HT Hc.
  destruct (round_page this env n path offset limit options Function Function
              status res pg) as (data' & Hd' & ->); try done.
  assert (data' = data) as -> by congruence.
  rewrite (advanced_Int _ _ _ Hr). simpl. rewrite Hc.
  destruct (truthy cont) eqn:Htc; simpl.
  - rewrite (continuation_truthy _ _ _ _ _ T); try done.
    by destruct (0 <? T - (offset + r)).
  - by rewrite continuation_falsy.
Qed.

(** ** Termination *)

Section Termination.
Context (this : Pivotal) (env : environment) (path : string).
Context (options : option (gmap string value)) (T : Z).

Hypothesis server_pages :
  ∀ n opts, ∃ status res pg r,
    transport env n opts = TransportSuccess status res ∧
    get res "pagination" = Some pg ∧ truthy pg = true ∧
    page_field "returned" pg = Some r ∧ 1 ≤ r ∧
    page_field "total" pg = Some T.

Hypothesis caller_answers :
  ∀ n data pg, is_Some (on_page env n data pg).

Lemma session_terminates fuel : ∀ n o l,
  (Z.to_nat (T - o) < fuel)%nat →
  ∃ tr,
    paginated fuel this env n path o l options Function Function
      = (tr, Settled) ∧
    last tr = Some (OnComplete []) ∧
    (length (request_offsets tr) ≤ S (Z.to_nat (T - o)))%nat.
Proof.
  induction fuel as [|fuel IH]; intros n o l Hfuel; [lia|].
  rewrite paginated_S.
  destruct (server_pages n (paginated_opts this path o l options))
    as (status & res & pg & r & Ht & Hpg & Htr & Hr & Hr1 & HT).
  assert (is_Some (get res "data")) as [data Hd].
  { destruct res; simpl in *; try done; eauto. }
  destruct (caller_answers n data pg) as [cont Hc].
  rewrite (round_delivered _ _ _ _ _ _ _ _ _ _ _ _ _ _
             Ht Hpg Htr Hd Hr HT Hc).
  simpl.
  destruct (truthy cont && (0 <? T - (o + r))) eqn:Hgo.
  - apply andb_true_iff in Hgo as [_ Hlt%Z.ltb_lt].
    destruct (IH (S n) (o + r) (Z.min (T - (o + r)) l))
      as (tr & -> & Hlast & Hlen); [lia|].
    eexists. split; [done|]. split.
    + cbn [app]. rewrite !last_cons. by rewrite Hlast.
    + read_trace. simpl. lia.
  - eexists. split; [done|]. split; [done|]. read_trace. simpl. lia.
Qed.
End Termination.

(** Every request of a session is made with the options that [paginated]
    builds from the offset and limit of that invocation. *)
Lemma run_requests this env path options callback completed n o l tr e :
  run this env path options callback completed n o l tr e →
  Forall (λ ev, match ev with
                | Request o l opts => opts = paginated_opts this path o l options
                | OnPage err _ _ => err = VNull
                | OnComplete args => (length args ≤ 1)%nat
                end) tr.
Proof.
  induction 1 as [| n o l evs e Hr | n o l evs o' l' tr e Hr Hrun IH].
  - constructor.
  - apply round_stop_inv in Hr as [_ Hr]. simpl in Hr.
    destruct Hr as [->|[(a & -> & _)|[(d & pg & ->)|(d & pg & -> & _)]]];
      repeat constructor.
  - apply round_next_inv in Hr as (d & pg & r & T & -> & _).
    by repeat constructor.
Qed.

(** A session with fuel begins with the request of its first invocation. *)
Lemma paginated_first_request fuel this env n path o l options
    callback completed :
  ∃ rest e,
    paginated (S fuel) this env n path o l options callback completed
    = (Request o l (paginated_opts this path o l options) :: rest, e).
Proof.
  rewrite paginated_S.
  destruct (round this env n path o l options callback completed)
    as [evs e'|evs o' l'] eqn:Hr.
  - apply round_stop_inv in Hr as [_ Hr]. simpl in Hr.
    destruct Hr as [->|[(a & -> & _)|[(d & pg & ->)|(d & pg & -> & _)]]];
      eauto.
  - apply round_next_inv in Hr as (d & pg & r & T & -> & _).
    destruct (paginated fuel _ _ _ _ _ _ _ _ _) as [tr e]. simpl. eauto.
Qed.

Section Steps.
Context (this : Pivotal) (env : environment) (n : nat) (path : string).
Context (offset limit : Z) (options : option (gmap string value)).
Context (status r T : Z) (res pg data cont : value).

Hypothesis reply :
  transport env n (paginated_opts this path offset limit options)
    = TransportSuccess status res.
Hypothesis reply_pagination : get res "pagination" = Some pg.
Hypothesis pagination_truthy : truthy pg = true.
Hypothesis reply_data : get res "data" = Some data.
Hypothesis reply_returned : page_field "returned" pg = Some r.
Hypothesis reply_total : page_field "total" pg = Some T.
Hypothesis caller : on_page env n data pg = Some cont.
Hypothesis caller_truthy : truthy cont = true.

Lemma session_step_continue fuel o' l' :
  o' = offset + r →
  0 < T - o' →
  l' = Z.min (T - o') limit →
  paginated (S fuel) this env n path offset limit options Function Function
  = let '(tr, e) :=
      paginated fuel this env (S n) path o' l' options Function Function in
    (Request offset limit (paginated_opts this path offset limit options)
       :: OnPage VNull data pg :: tr, e).
Proof.
  intros -> Hlt ->. rewrite paginated_S.
  rewrite (round_delivered _ _ _ _ _ _ _ _ _ _ _ _ _ _
             reply reply_pagination pagination_truthy reply_data
             reply_returned reply_total caller).
  cbv zeta. rewrite caller_truthy. cbn [andb].
  apply Z.ltb_lt in Hlt. by rewrite Hlt.
Qed.

Lemma session_step_exhausted fuel :
  T - (offset + r) ≤ 0 →
  paginated (S fuel) this env n path offset limit options Function Function
  = ([Request offset limit (paginated_opts this path offset limit options);
      OnPage VNull data pg; OnComplete []], Settled).
Proof.
  intros Hle. rewrite paginated_S.
  rewrite (round_delivered _ _ _ _ _ _ _ _ _ _ _ _ _ _
             reply reply_pagination pagination_truthy reply_data
             reply_returned reply_total caller).
  cbv zeta. apply Z.ltb_ge in Hle. rewrite Hle. by rewrite andb_false_r.
Qed.
End Steps.

(** * The claims *)

(** ** C1: the query of a pagination request *)

(** C1, as the code has it.  Every request that a session issues carries
    the query [_.extend({offset, limit, envelope: true}, extraParams)]:
    on every key the entry of [extraParams] is the one sent when there is
    one, and the paginator's own offset, limit and [envelope: true] are
    sent exactly on the keys that [extraParams] leaves out. *)
Theorem C1_query_is_extraParams_over_paginator_defaults :
  ∀ fuel this env n path offset limit options callback completed,
    Forall (λ ev, match ev with
                  | Request o l opts =>
                      opts !! "qs" = Some (VObj (paginated_qs o l options))
                  | _ => True
                  end)
      (paginated fuel this env n path offset limit options callback completed).1
    ∧ (∀ o l k,
         paginated_qs o l options !! k =
           match options ≫= (λ extra, extra !! k) with
           | Some v => Some v
           | None => paginated_defaults o l !! k
           end)
    ∧ (∀ o l,
         paginated_qs o l options !! "offset"
           = Some (default (VNum o) (options ≫= (λ extra, extra !! "offset"))) ∧
         paginated_qs o l options !! "limit"
           = Some (default (VNum l) (options ≫= (λ extra, extra !! "limit"))) ∧
         paginated_qs o l options !! "envelope"
           = Some (default (VBool true)
                     (options ≫= (λ extra, extra !! "envelope")))).
Proof.
  intros. split; [|split].
  - destruct (paginated _ _ _ _ _ _ _ _ _ _) as [tr e] eqn:Hp. simpl.
    apply paginated_run, run_requests in Hp.
    eapply Forall_impl; [exact Hp|]. intros [o l opts| |]; try done.
    intros ->. apply api_opts_qs.
  - intros. apply extend_lookup.
  - intros. unfold paginated_qs. rewrite !extend_lookup.
    by repeat split; destruct (options ≫= _).
Qed.

(** C1 as stated fails: with [extraParams = {offset: 999}] the request of
    [paginated(path, 0, 128, ...)] is sent with [offset = 999]. *)
Lemma C1_extraParams_override_reserved_keys :
  ¬ (∀ fuel this env n path offset limit options callback completed,
       Forall (λ ev, match ev with
                     | Request o l opts =>
                         ∃ qs, opts !! "qs" = Some (VObj qs) ∧
                               qs !! "offset" = Some (VNum o) ∧
                               qs !! "limit" = Some (VNum l) ∧
                               qs !! "envelope" = Some (VBool true)
                     | _ => True
                     end)
         (paginated fuel this env n path offset limit options
            callback completed).1).
Proof.
  intros H.
  specialize (H 1%nat (new_Pivotal (VStr "token")) (constant_server VNull)
                0%nat "projects/1/stories" 0 128
                (Some {[ "offset" := VNum 999 ]}) Function Function).
  vm_compute in H. apply Forall_cons in H as [(qs & [= <-] & Hoff & _) _].
  vm_compute in Hoff. discriminate.
Qed.

(** ** C7: the request executor *)

(** C7.  A call of [api] hands the transport the defaults (method,
    url, [json: true], the [X-TrackerToken] header with the instance's
    token) overlaid by the caller's options, which win on every key they
    have; its callback receives the transport error and [undefined] when
    the round trip failed, and [null] and the parsed body when it
    succeeded, whatever the status. *)
Theorem C7_api_defaults_and_callback_arguments :
  ∀ this method path options callback respond,
    let opts := (api this method path options callback respond).1 in
    (∀ k, opts !! k =
            match options ≫= (λ o, o !! k) with
            | Some v => Some v
            | None => api_defaults this method path !! k
            end)
    ∧ opts !! "json"
        = Some (default (VBool true) (options ≫= (λ o, o !! "json")))
    ∧ opts !! "headers"
        = Some (default (VObj {[ "X-TrackerToken" := apiToken this ]})
                  (options ≫= (λ o, o !! "headers")))
    ∧ (api this method path options Function respond).2
        = match respond opts with
          | TransportFailure message =>
              [(transport_error message, VUndefined)]
          | TransportSuccess status body => [(VNull, body)]
          end
    ∧ (∀ message, truthy (transport_error message) = true)
    ∧ truthy VNull = false.
Proof.
  intros. subst opts. unfold api. cbn [fst snd].
  split; [|split; [|split; [|split; [|done]]]].
  - intros. apply extend_lookup.
  - unfold api_opts. rewrite extend_lookup. by destruct (options ≫= _).
  - unfold api_opts. rewrite extend_lookup. by destruct (options ≫= _).
  - by destruct (respond _).
Qed.

(** ** C10: the callback of [api] *)

(** C10.  Every call of [api] makes its request, and per round trip it
    calls its callback once when it is a function and not at all when
    it is left out or no function; no outcome of the round trip makes
    it call anything else. *)
Theorem C10_api_callback_called_once_iff_function :
  ∀ this method path options respond,
    (∃ err result,
       (api this method path options Function respond).2 = [(err, result)])
    ∧ (api this method path options Absent respond).2 = []
    ∧ (∀ v, (api this method path options (NotFunction v) respond).2 = [])
    ∧ (∀ callback,
         length (api this method path options callback respond).2
           = if isFunction callback then 1%nat else 0%nat)
    ∧ (∀ callback,
         (api this method path options callback respond).1
           = api_opts this method path options).
Proof.
  intros. unfold api. cbn [fst snd].
  split; [|split; [|split; [|split; [|done]]]].
  - destruct (respond _); simpl; eauto.
  - by destruct (respond _).
  - intros v. by destruct (respond _).
  - intros callback. by destruct (respond _), callback.
Qed.

(** ** C9: the paginated wrappers *)

(** C9.  [getStories], [getActivity] and [getIterations] treat an offset
    or limit of 0 as one that is left out: the sessions are the same.
    With the offset left out the first request is made at offset 0, and
    with the limit left out it is made with limit 128. *)
Theorem C9_zero_offset_or_limit_is_absent :
  ∀ fuel this env projectId options callback completed,
    Forall (λ '(wrapper, resource),
      (∀ limit,
         wrapper fuel this env projectId options callback completed
           (Some 0) limit
         = wrapper fuel this env projectId options callback completed
             None limit)
      ∧ (∀ offset,
           wrapper fuel this env projectId options callback completed
             offset (Some 0)
           = wrapper fuel this env projectId options callback completed
               offset None)
      ∧ (∀ limit, ∃ l rest e,
           wrapper (S fuel) this env projectId options callback completed
             None limit
           = (Request 0 l
                (paginated_opts this (collection_path projectId resource)
                   0 l options) :: rest, e))
      ∧ (∀ offset, ∃ o rest e,
           wrapper (S fuel) this env projectId options callback completed
             offset None
           = (Request o 128
                (paginated_opts this (collection_path projectId resource)
                   o 128 options) :: rest, e)))
      [(getStories, "/stories");
       (getActivity, "/activity");
       (getIterations, "/iterations")].
Proof.
  intros.
  repeat constructor; intros; eexists; apply paginated_first_request.
Qed.

(** ** C3: the continuation *)





(** ** C8: callbacks that are left out *)



(** ** C6: 300 items in pages of 128 *)

(** C6.  With a total of 300, a server that returns as many items as the
    query's limit asks for, a caller that continues, and no [limit]
    among the extra parameters, the session from offset 0 with limit 128
    makes three requests, at offsets 0, 128 and 256 with limits 128, 128
    and 44, delivers pages of 128, 128 and 44 items and ends with
    [completed()] after the third page. *)
Theorem C6_three_pages_of_300 :
  ∀ fuel this env path options,
    options ≫= (λ extra, extra !! "limit") = None →
    (∀ n opts qs lim,
       opts !! "qs" = Some (VObj qs) →
       qs !! "limit" = Some (VNum lim) →
       ∃ status res pg,
         transport env n opts = TransportSuccess status res ∧
         get res "pagination" = Some pg ∧ truthy pg = true ∧
         page_field "returned" pg = Some lim ∧
         page_field "total" pg = Some 300) →
    (∀ n data pg, ∃ c, on_page env n data pg = Some c ∧ truthy c = true) →
    (3 ≤ fuel)%nat →
    ∃ tr,
      paginated fuel this env 0 path 0 128 options Function Function
        = (tr, Settled) ∧
      request_offsets tr = [0; 128; 256] ∧
      request_limits tr = [128; 128; 44] ∧
      page_returns tr = [128; 128; 44] ∧
      completions tr = [[]] ∧
      last tr = Some (OnComplete []) ∧
      length tr = 7%nat.
Proof.
  intros fuel this env path options Hopt Hserver Hcaller Hfuel.
  assert (∀ n o l, ∃ status res pg data c,
            transport env n (paginated_opts this path o l options)
              = TransportSuccess status res ∧
            get res "pagination" = Some pg ∧ truthy pg = true ∧
            get res "data" = Some data ∧
            page_field "returned" pg = Some l ∧
            page_field "total" pg = Some 300 ∧
            on_page env n data pg = Some c ∧ truthy c = true) as Hpage.
  { intros n o l.
    destruct (Hserver n (paginated_opts this path o l options)
                (paginated_qs o l options) l)
      as (status & res & pg & Ht & Hpg & Htr & Hr & HT).
    - apply api_opts_qs.
    - unfold paginated_qs. by rewrite extend_lookup, Hopt.
    - assert (is_Some (get res "data")) as [data Hd].
      { destruct res; simpl in *; try done; eauto. }
      destruct (Hcaller n data pg) as (c & Hc & Htc).
      exists status, res, pg, data, c. done. }
  destruct fuel as [|[|[|fuel]]]; try lia.
  destruct (Hpage 0%nat 0 128)
    as (s1 & res1 & pg1 & d1 & c1 & Ht1 & Hpg1 & Htr1 & Hd1 & Hr1 & HT1
        & Hc1 & Htc1).
  destruct (Hpage 1%nat 128 128)
    as (s2 & res2 & pg2 & d2 & c2 & Ht2 & Hpg2 & Htr2 & Hd2 & Hr2 & HT2
        & Hc2 & Htc2).
  destruct (Hpage 2%nat 256 44)
    as (s3 & res3 & pg3 & d3 & c3 & Ht3 & Hpg3 & Htr3 & Hd3 & Hr3 & HT3
        & Hc3 & Htc3).
  rewrite (session_step_continue _ _ _ _ _ _ _ _ _ _ _ _ _ _
             Ht1 Hpg1 Htr1 Hd1 Hr1 HT1 Hc1 Htc1 _ 128 128); try lia.
  rewrite (session_step_continue _ _ _ _ _ _ _ _ _ _ _ _ _ _
             Ht2 Hpg2 Htr2 Hd2 Hr2 HT2 Hc2 Htc2 _ 256 44); try lia.
  rewrite (session_step_exhausted _ _ _ _ _ _ _ _ _ _ _ _ _ _
             Ht3 Hpg3 Htr3 Hd3 Hr3 HT3 Hc3); try lia.
  eexists. split; [done|]. read_trace. done.
Qed.

Lemma C6_witness :
  ∃ tr,
    paginated 3 (new_Pivotal (VStr "token")) (limit_echo_server 300) 0
      "projects/1/stories" 0 128 None Function Function = (tr, Settled) ∧
    request_offsets tr = [0; 128; 256] ∧
    request_limits tr = [128; 128; 44] ∧
    page_returns tr = [128; 128; 44] ∧
    completions tr = [[]] ∧
    last tr = Some (OnComplete []) ∧
    length tr = 7%nat.
Proof.
  apply (C6_three_pages_of_300 3 (new_Pivotal (VStr "token"))
           (limit_echo_server 300) "projects/1/stories" None).
  - reflexivity.
  - intros n opts qs lim Hqs Hlim. simpl. rewrite Hqs. simpl. rewrite Hlim.
    simpl. eexists _, _, _. repeat split; reflexivity.
  - intros. by exists (VBool true).
  - lia.
Defined.

(** The same session against a collection of 300 items served by offset
    and limit, through [getStories] with offset and limit left out. *)
Example getStories_300_items :
  let items := map (λ i, VNum (Z.of_nat i)) (seq 0 300) in
  let tr :=
    (getStories 10 (new_Pivotal (VStr "token")) (collection_server items)
       "1" None Function Function None None).1 in
  request_offsets tr = [0; 128; 256] ∧
  request_limits tr = [128; 128; 44] ∧
  page_returns tr = [128; 128; 44] ∧
  omap (λ ev, match ev with
              | OnPage _ (VArr page) _ => Some (length page)
              | _ => None
              end) tr = [128; 128; 44]%nat ∧
  completions tr = [[]].
Proof. vm_compute. done. Qed.

(** ** C2: offsets, termination and the last page *)

(** C2, as the code has it.  In a session whose pages carry integers
    and whose offsets, returned counts and totals have magnitude at most
    2^52 (on which the sums and differences are the source's), each
    request after the first is made at the previous offset plus what
    the previous page returned, so the offsets increase strictly when
    every page returns more than 0.  When every response is a page that
    returns at least 1 of a fixed total and the caller invokes every
    continuation, the session reaches [completed()] after finitely many
    requests.  In a session that runs to exhaustion in which no page
    returns more than the limit of its request, the count that remains
    before the last page is at most the limit of that page's request. *)
Theorem C2_offsets_increase_and_session_terminates :
  ∀ this env path options,
    (∀ fuel n offset limit callback completed,
       let tr := (paginated fuel this env n path offset limit options
                    callback completed).1 in
       Forall integer_page (pages tr) →
       Forall small (request_offsets tr) →
       (∀ i o1 o2,
          request_offsets tr !! i = Some o1 →
          request_offsets tr !! S i = Some o2 →
          ∃ r, page_returns tr !! i = Some r ∧ o2 = o1 + r) ∧
       (Forall (λ r, 0 < r) (page_returns tr) →
        StronglySorted Z.lt (request_offsets tr)))
    ∧ (∀ T n offset limit,
         small offset → small T →
         (∀ k opts, ∃ status res pg r,
            transport env k opts = TransportSuccess status res ∧
            get res "pagination" = Some pg ∧ truthy pg = true ∧
            page_field "returned" pg = Some r ∧ 1 ≤ r ∧ small r ∧
            page_field "total" pg = Some T) →
         (∀ k data pg, is_Some (on_page env k data pg)) →
         ∃ N, ∀ fuel, (N ≤ fuel)%nat →
           ∃ tr,
             paginated fuel this env n path offset limit options
               Function Function = (tr, Settled) ∧
             last tr = Some (OnComplete []) ∧
             (length (request_offsets tr) ≤ N)%nat)
    ∧ (∀ T fuel n offset limit callback completed tr e,
         (∀ k data pg c, on_page env k data pg = Some c → truthy c = true) →
         paginated fuel this env n path offset limit options
           callback completed = (tr, e) →
         last tr = Some (OnComplete []) →
         Forall (integer_page_of T) (pages tr) →
         Forall small (request_offsets tr) →
         Forall2 (λ l r, r ≤ l) (request_limits tr) (page_returns tr) →
         ∃ o_last l_last,
           last (request_offsets tr) = Some o_last ∧
           last (request_limits tr) = Some l_last ∧
           T - o_last ≤ l_last).
Proof.
  intros this env path options. split; [|split].
  - intros fuel n offset limit callback completed tr. subst tr.
    destruct (paginated _ _ _ _ _ _ _ _ _ _) as [tr e] eqn:Hp. simpl.
    intros Hint _. apply paginated_run in Hp. split.
    + by eapply run_steps.
    + intros Hpos. by eapply run_increasing.
  - intros T n offset limit _ _ Hserver Hcaller.
    exists (S (Z.to_nat (T - offset))). intros fuel Hfuel.
    destruct (session_terminates this env path options T) with
      (fuel := fuel) (n := n) (o := offset) (l := limit)
      as (tr & Hp & Hlast & Hlen); [| |lia|eauto]; [|done].
    intros k opts.
    destruct (Hserver k opts) as (st & res & pg & r & ? & ? & ? & ? & ? & ? & ?).
    exists st, res, pg, r. done.
  - intros T fuel n offset limit callback completed tr e Hcont Hp Hlast
      Htot _ Hle.
    apply paginated_run in Hp.
    by eapply run_exhausted_final.
Qed.

(** C2 as stated fails in its last part: with a total of 300 and limit
    128, a server that returns 1 item and then 299 ends the session with
    its second page, before which 299 remained, more than the limit 128
    of that page's request. *)
Lemma C2_last_page_remaining_exceeds_limit :
  ¬ (∀ this env path options T fuel limit tr,
       (∀ k opts, ∃ status res pg r,
          transport env k opts = TransportSuccess status res ∧
          get res "pagination" = Some pg ∧ truthy pg = true ∧
          page_field "returned" pg = Some r ∧ 1 ≤ r ∧
          page_field "total" pg = Some T) →
       (∀ k data pg c, on_page env k data pg = Some c → truthy c = true) →
       paginated fuel this env 0 path 0 limit options Function Function
         = (tr, Settled) →
       last tr = Some (OnComplete []) →
       ∀ o_last l_last,
         last (request_offsets tr) = Some o_last →
         last (request_limits tr) = Some l_last →
         T - o_last ≤ l_last).
Proof.
  intros H.
  pose (env := reporting_server (λ k, match k with O => 1 | S _ => 299 end)
                 300).
  enough (300 - 1 ≤ 128) by lia.
  eapply (H (new_Pivotal (VStr "token")) env "projects/1/stories" None 300
            5%nat 128).
  - intros k opts.
    exists 200, (page_body [] (match k with O => 1 | S _ => 299 end) 300),
      (VObj {[ "returned" := VNum (match k with O => 1 | S _ => 299 end);
               "total" := VNum 300 ]}),
      (match k with O => 1 | S _ => 299 end).
    repeat split; try reflexivity. destruct k; lia.
  - intros k data pg c [= <-]. reflexivity.
  - vm_compute. reflexivity.
  - reflexivity.
  - reflexivity.
  - reflexivity.
Qed.

Ltac small_number :=
  unfold small; split; apply Z.leb_le; vm_compute; reflexivity.

Ltac integer_page_here :=
  eexists _, _; split; [reflexivity|]; split; [reflexivity|];
  split; small_number.

Ltac integer_pages :=
  repeat (constructor;
          [first [split; [integer_page_here|reflexivity]
                 |integer_page_here]|]);
  try constructor.

Lemma C2_witness :
  (∃ N, ∀ fuel, (N ≤ fuel)%nat →
     ∃ tr,
       paginated fuel (new_Pivotal (VStr "token"))
         (reporting_server (λ _, 2) 5) 0 "projects/1/stories" 0 128 None
         Function Function = (tr, Settled) ∧
       last tr = Some (OnComplete []) ∧
       (length (request_offsets tr) ≤ N)%nat)
  ∧ (∃ o_last l_last,
       last [0; 128; 256] = Some o_last ∧
       last [128; 128; 44] = Some l_last ∧
       300 - o_last ≤ l_last).
Proof.
  split.
  - apply (proj1 (proj2 (C2_offsets_increase_and_session_terminates
             (new_Pivotal (VStr "token")) (reporting_server (λ _, 2) 5)
             "projects/1/stories" None)) 5 0%nat 0 128).
    + small_number.
    + small_number.
    + intros k opts.
      exists 200, (page_body [] 2 5),
        (VObj {[ "returned" := VNum 2; "total" := VNum 5 ]}), 2.
      split; [reflexivity|]. split; [reflexivity|]. split; [reflexivity|].
      split; [reflexivity|]. split; [lia|]. split; [small_number|reflexivity].
    + intros k data pg. by exists (VBool true).
  - apply (proj2 (proj2 (C2_offsets_increase_and_session_terminates
             (new_Pivotal (VStr "token")) (limit_echo_server 300)
             "projects/1/stories" None)) 300 3%nat 0%nat 0 128
             Function Function
             (paginated 3 (new_Pivotal (VStr "token")) (limit_echo_server 300)
                0 "projects/1/stories" 0 128 None Function Function).1
             Settled).
    + intros k data pg c [= <-]. reflexivity.
    + vm_compute. reflexivity.
    + vm_compute. reflexivity.
    + replace (pages _) with
        [page_body_pagination 128 300; page_body_pagination 128 300;
         page_body_pagination 44 300] by (vm_compute; reflexivity).
      integer_pages.
    + replace (request_offsets _) with [0; 128; 256]
        by (vm_compute; reflexivity).
      repeat (constructor; [small_number|]). constructor.
    + replace (request_limits _) with [128; 128; 44]
        by (vm_compute; reflexivity).
      replace (page_returns _) with [128; 128; 44]
        by (vm_compute; reflexivity).
      repeat constructor; lia.
Defined.

(** ** C5: the pages add up to the total *)

(** C5, as the code has it.  In a session started at offset 0 that runs
    to exhaustion, whose pages carry integers and report a fixed total,
    with offsets, returned counts and total of magnitude at most 2^52
    (on which the sums and differences are the source's), in which no
    page returns more than the limit of its request and the first page
    returns no more than the total, the counts returned by the
    delivered pages add up to the total. *)
Theorem C5_returned_counts_sum_to_total :
  ∀ this env path options callback completed T fuel limit tr e,
    (∀ k data pg c, on_page env k data pg = Some c → truthy c = true) →
    paginated fuel this env 0 path 0 limit options callback completed
      = (tr, e) →
    last tr = Some (OnComplete []) →
    Forall (integer_page_of T) (pages tr) →
    Forall small (request_offsets tr) →
    Forall2 (λ l r, r ≤ l) (request_limits tr) (page_returns tr) →
    (∀ r, head (page_returns tr) = Some r → r ≤ T) →
    sumZ (page_returns tr) = T ∧ e = Settled.
Proof.
  intros this env path options callback completed T fuel limit tr e
    Hcont Hp Hlast Htot _ Hle Hfirst.
  apply paginated_run in Hp. split.
  - rewrite <- (Z.add_0_l (sumZ _)).
    eapply run_exhausted_sum; eauto.
    intros r Hr. specialize (Hfirst r Hr). lia.
  - by eapply run_complete_settled.
Qed.

(** C5 as stated fails: a server that answers the first request (limit
    128) with [returned = 10] of [total = 5] ends the session by
    exhaustion after one page, and the pages add up to 10. *)
Lemma C5_first_page_may_exceed_total :
  ¬ (∀ this env path options T fuel limit tr,
       (∀ k data pg c, on_page env k data pg = Some c → truthy c = true) →
       paginated fuel this env 0 path 0 limit options Function Function
         = (tr, Settled) →
       last tr = Some (OnComplete []) →
       Forall (λ t, t = T) (page_totals tr) →
       Forall2 (λ l r, r ≤ l) (request_limits tr) (page_returns tr) →
       sumZ (page_returns tr) = T).
Proof.
  intros H.
  enough (10 = 5) by lia.
  change 10 with
    (sumZ (page_returns
       (paginated 4 (new_Pivotal (VStr "token"))
          (reporting_server (λ _, 10) 5) 0 "projects/1/stories" 0 128 None
          Function Function).1)).
  eapply (H (new_Pivotal (VStr "token")) (reporting_server (λ _, 10) 5)
            "projects/1/stories" None 5 4%nat 128).
  - intros k data pg c [= <-]. reflexivity.
  - vm_compute. reflexivity.
  - reflexivity.
  - replace (page_totals _) with [5] by (vm_compute; reflexivity).
    repeat constructor.
  - replace (request_limits _) with [128] by (vm_compute; reflexivity).
    replace (page_returns _) with [10] by (vm_compute; reflexivity).
    repeat constructor; lia.
Qed.

Lemma C5_witness :
  sumZ [128; 128; 44] = 300 ∧ Settled = Settled.
Proof.
  apply (C5_returned_counts_sum_to_total
           (new_Pivotal (VStr "token")) (limit_echo_server 300)
           "projects/1/stories" None Function Function 300 3%nat 128
           (paginated 3 (new_Pivotal (VStr "token")) (limit_echo_server 300)
              0 "projects/1/stories" 0 128 None Function Function).1
           Settled).
  - intros k data pg c [= <-]. reflexivity.
  - vm_compute. reflexivity.
  - vm_compute. reflexivity.
  - replace (pages _) with
      [page_body_pagination 128 300; page_body_pagination 128 300;
       page_body_pagination 44 300] by (vm_compute; reflexivity).
    integer_pages.
  - replace (request_offsets _) with [0; 128; 256]
      by (vm_compute; reflexivity).
    repeat (constructor; [small_number|]). constructor.
  - replace (request_limits _) with [128; 128; 44]
      by (vm_compute; reflexivity).
    replace (page_returns _) with [128; 128; 44]
      by (vm_compute; reflexivity).
    repeat constructor; lia.
  - replace (page_returns _) with [128; 128; 44]
      by (vm_compute; reflexivity).
    intros r [= <-]. lia.
Defined.

(** ** C4: errors and malformed responses *)

(** What C4 says holds for every reply whose [pagination] can be read:
    an error goes to [completed] alone, as its one argument; a response
    whose [pagination] is falsy goes to [completed] alone, as its one
    argument; and a session never calls [callback] with an error, nor
    [completed] with more than one argument. *)
Lemma error_and_malformed_reply_complete offset callback err res :
  (truthy err = true →
   on_response offset callback Function err res = Complete [err])
  ∧ (∀ pg, truthy err = false → get res "pagination" = Some pg →
           truthy pg = false →
           on_response offset callback Function err res = Complete [res]).
Proof.
  split.
  - intros Herr. by rewrite on_response_error.
  - intros pg Herr Hpg Hf. by rewrite (on_response_malformed _ _ _ _ _ pg).
Qed.

Lemma session_callbacks_arguments fuel this env n path offset limit options
    callback completed :
  Forall (λ ev, match ev with
                | Request _ _ _ => True
                | OnPage err _ _ => err = VNull
                | OnComplete args => (length args ≤ 1)%nat
                end)
    (paginated fuel this env n path offset limit options callback completed).1.
Proof.
  destruct (paginated _ _ _ _ _ _ _ _ _ _) as [tr e] eqn:Hp. simpl.
  apply paginated_run, run_requests in Hp.
  eapply Forall_impl; [exact Hp|]. by intros [].
Qed.

(** C4 at the failing input.  A round trip that succeeds with the body
    [null] (or with no body, [undefined]) is a response without a
    pagination field, yet the handler throws a TypeError on reading
    [res.pagination]: [completed] is not called, in a session the trace
    is the request alone and it ends raised. *)
Theorem C4_null_body_raises_instead_of_completing :
  (∀ offset callback completed,
     on_response offset callback completed VNull VNull = Raise ∧
     on_response offset callback completed VNull VUndefined = Raise)
  ∧ (∀ fuel this path offset limit options,
       paginated (S fuel) this (constant_server VNull) 0 path offset limit
         options Function Function
       = ([Request offset limit (paginated_opts this path offset limit options)],
          Raised)).
Proof. split; [by split|done]. Qed.


(** * Beyond the claims: the wrappers of [api] *)

Lemma api_opts_authenticated this method path options :
  options ≫= (λ o, o !! "method") = None →
  options ≫= (λ o, o !! "url") = None →
  options ≫= (λ o, o !! "headers") = None →
  authenticated this method path (api_opts this method path options).
Proof.
  intros Hm Hu Hh. unfold authenticated, api_opts.
  rewrite !extend_lookup, Hm, Hu, Hh. done.
Qed.

(** X1.  Whatever a caller passes to a wrapper as parameters, options,
    name or stories, and whatever extra parameters a paginated session
    carries, the request goes out with the wrapper's own method, to the
    wrapper's path under the base URL, with the instance's token as its
    header: caller data is nested under [json], [body] or [qs] and never
    displaces them. *)
Theorem wrappers_keep_method_url_and_token :
  ∀ this projectId storyId params name stories options stringify
    callback respond path offset limit extra,
    authenticated this "put"
      (collection_path projectId (String.append "/stories/" storyId))
      (updateStory this projectId storyId params callback respond).1
    ∧ authenticated this "get" (String.append "/stories/" storyId)
        (getStory this storyId callback respond).1
    ∧ authenticated this "get" "/projects" (getProjects this callback respond).1
    ∧ authenticated this "get" (story_path projectId storyId "/activity")
        (getStoryActivity this projectId storyId callback options respond).1
    ∧ authenticated this "get" "my/activity"
        (getMyActivity this callback options respond).1
    ∧ authenticated this "get" (story_path projectId storyId "/tasks")
        (getTasks this projectId storyId callback respond).1
    ∧ authenticated this "get" (collection_path projectId "/iterations")
        (getCurrentIterations this projectId callback respond).1
    ∧ authenticated this "get" (collection_path projectId "/memberships")
        (getMemberships this projectId callback respond).1
    ∧ authenticated this "get" (story_path projectId storyId "/comments")
        (getComments this projectId storyId callback respond).1
    ∧ authenticated this "post" "stories/export"
        (exportStories stringify this stories callback respond).1
    ∧ authenticated this "get" (collection_path projectId "/labels")
        (getLabels this projectId callback respond).1
    ∧ authenticated this "post" (collection_path projectId "/labels")
        (createLabel this projectId name callback respond).1
    ∧ authenticated this "post" (collection_path projectId "/stories")
        (createStory this projectId params callback respond).1
    ∧ authenticated this "get" path
        (paginated_opts this path offset limit extra).
Proof.
  intros. repeat split; by apply api_opts_authenticated.
Qed.

(** X2.  How the writing wrappers carry their data: [updateStory] puts
    the parameters in place of [json: true] and sends no [body];
    [createStory] and [createLabel] send a [body] and keep [json: true];
    the reading wrappers send the defaults and nothing else. *)
Theorem wrappers_json_and_body :
  ∀ this projectId storyId params name callback respond,
    ((updateStory this projectId storyId params callback respond).1 !! "json"
       = Some params ∧
     (updateStory this projectId storyId params callback respond).1 !! "body"
       = None)
    ∧ ((createStory this projectId params callback respond).1 !! "json"
         = Some (VBool true) ∧
       (createStory this projectId params callback respond).1 !! "body"
         = Some params)
    ∧ ((createLabel this projectId name callback respond).1 !! "json"
         = Some (VBool true) ∧
       (createLabel this projectId name callback respond).1 !! "body"
         = Some (VObj {[ "name" := name ]}))
    ∧ (getStory this storyId callback respond).1
        = api_defaults this "get" (String.append "/stories/" storyId)
    ∧ (getProjects this callback respond).1 = api_defaults this "get" "/projects"
    ∧ (getTasks this projectId storyId callback respond).1
        = api_defaults this "get" (story_path projectId storyId "/tasks")
    ∧ (getMemberships this projectId callback respond).1
        = api_defaults this "get" (collection_path projectId "/memberships")
    ∧ (getComments this projectId storyId callback respond).1
        = api_defaults this "get" (story_path projectId storyId "/comments")
    ∧ (getLabels this projectId callback respond).1
        = api_defaults this "get" (collection_path projectId "/labels").
Proof.
  intros. simpl. unfold api_opts.
  repeat split; try (by rewrite extend_lookup); apply (left_id_L ∅ (∪)).
Qed.

(** X3.  [getStoryActivity] and [getMyActivity] take falsy options for
    options that are left out: the request is the one made with [{}],
    and the query they send is never a falsy value. *)
Theorem activity_options_default_to_empty :
  ∀ this projectId storyId callback options respond,
    truthy options = false →
    getStoryActivity this projectId storyId callback options respond
      = getStoryActivity this projectId storyId callback (VObj ∅) respond
    ∧ getMyActivity this callback options respond
        = getMyActivity this callback (VObj ∅) respond
    ∧ (getMyActivity this callback options respond).1 !! "qs"
        = Some (VObj ∅).
Proof.
  intros * Hf. unfold getStoryActivity, getMyActivity, js_or.
  rewrite Hf. simpl. repeat split.
Qed.

Lemma activity_options_default_to_empty_witness :
  getStoryActivity (new_Pivotal (VStr "token")) "1" "2" Function VNull
    (λ _, TransportSuccess 200 (VArr []))
  = getStoryActivity (new_Pivotal (VStr "token")) "1" "2" Function (VObj ∅)
      (λ _, TransportSuccess 200 (VArr [])).
Proof.
  apply (activity_options_default_to_empty (new_Pivotal (VStr "token"))
           "1" "2" Function VNull (λ _, TransportSuccess 200 (VArr []))).
  reflexivity.
Defined.

(** X4.  [getCurrentIterations] calls a callback that is a function
    once per round trip: with the error alone when the round trip
    failed; with [null] alone when it succeeded with a falsy body, so
    that the caller gets neither an error nor iterations; with [false]
    and the body otherwise.  A callback that is left out or no function
    is not called. *)
Theorem getCurrentIterations_callback :
  ∀ this projectId respond,
    (getCurrentIterations this projectId Function respond).2
      = match respond (getCurrentIterations this projectId Function respond).1
        with
        | TransportFailure message => [[transport_error message]]
        | TransportSuccess _ body =>
            if truthy body then [[VBool false; body]] else [[VNull]]
        end
    ∧ (getCurrentIterations this projectId Absent respond).2 = []
    ∧ (∀ v, (getCurrentIterations this projectId (NotFunction v) respond).2
              = [])
    ∧ (getCurrentIterations this projectId Function respond).1 !! "qs"
        = Some (VObj {[ "scope" := VStr "current";
                        "date_format" := VStr "millis" ]}).
Proof.
  intros. unfold getCurrentIterations, api. simpl.
  split; [|split; [|split]].
  - destruct (respond _) as [message|status body]; simpl; [done|].
    unfold on_iterations. simpl. by destruct (truthy body).
  - by destruct (respond _).
  - intros v. by destruct (respond _).
  - apply api_opts_qs.
Qed.

(** * Beyond the claims: [postAttachment] *)

(** X5.  When the upload fails in transport, a callback that is a
    function is called once with the error and [{success: false, error:
    err}], and no comment is posted.  The call is not guarded: a
    callback that is left out or no function makes the handler throw. *)
Theorem postAttachment_upload_failure :
  ∀ basename to_string json_parse this projectId storyId filepath type comment
    read message respond,
    let started :=
      [ReadFile filepath;
       Upload (upload_opts basename this projectId filepath type read.2)] in
    postAttachment basename to_string json_parse this projectId storyId
      filepath type comment Function read (TransportFailure message) respond
    = (started ++
       [AttachmentCallback
          [transport_error message;
           VObj {[ "success" := VBool false;
                   "error" := transport_error message ]}]], Settled)
    ∧ postAttachment basename to_string json_parse this projectId storyId
        filepath type comment Absent read (TransportFailure message) respond
      = (started, Raised)
    ∧ (∀ v,
         postAttachment basename to_string json_parse this projectId storyId
           filepath type comment (NotFunction v) read
           (TransportFailure message) respond
         = (started, Raised)).
Proof. intros. by repeat split. Qed.

(** X6.  An upload answered with a string is never taken for an error,
    whatever the string says: a string has no [kind], so the handler
    goes on to parse it and, when it parses, posts the comment with the
    parsed document as its attachment and hands the reply of that
    request to the callback under the guard of [api]; when it does not
    parse, the handler throws.  The callback never gets
    [{success: false}] here. *)
Theorem postAttachment_string_upload_is_never_an_error :
  ∀ basename to_string json_parse this projectId storyId filepath type comment
    callback read status s respond,
    let started :=
      [ReadFile filepath;
       Upload (upload_opts basename this projectId filepath type read.2)] in
    postAttachment basename to_string json_parse this projectId storyId
      filepath type comment callback read (TransportSuccess status (VStr s))
      respond
    = match json_parse (to_string (VStr s)) with
      | None => (started, Raised)
      | Some attachment =>
          let opts :=
            api_opts this "post" (story_path projectId storyId "/comments")
              (Some {[ "json" :=
                         VObj {[ "text" := comment;
                                 "file_attachments" := VArr [attachment] ]} ]})
          in
          (started ++ PostComment opts
             :: map (λ '(e, r), AttachmentCallback [e; r])
                  (api_round_trip callback (respond opts)), Settled)
      end.
Proof.
  intros. unfold postAttachment, on_upload. simpl.
  by destruct (json_parse _).
Qed.

(** X7.  A failed read of the file is not reported: whatever error
    reading gave, the upload is requested with the contents as its body
    and everything that follows is the same; the callback only ever
    sees the errors of the two requests. *)
Theorem postAttachment_ignores_read_error :
  ∀ basename to_string json_parse this projectId storyId filepath type comment
    callback read_error read_error' contents uploaded respond,
    postAttachment basename to_string json_parse this projectId storyId
      filepath type comment callback (read_error, contents) uploaded respond
    = postAttachment basename to_string json_parse this projectId storyId
        filepath type comment callback (read_error', contents) uploaded respond
    ∧ ∃ rest e,
        postAttachment basename to_string json_parse this projectId storyId
          filepath type comment callback (read_error, contents) uploaded
          respond
        = (ReadFile filepath
             :: Upload (upload_opts basename this projectId filepath type
                          contents) :: rest, e).
Proof.
  intros. split; [done|]. unfold postAttachment. simpl.
  destruct (request_callback_args uploaded) as [[err res] upload].
  destruct (on_upload _ _ _ _ _ _) as [|args|options]; simpl; eauto.
Qed.

(** * Beyond the claims: sessions of [paginated] *)

Section MoreSessions.
Context (this : Pivotal) (env : environment) (path : string).
Context (options : option (gmap string value)).
Context (callback completed : callable).

Abbreviation run2 := (run this env path options callback completed).

Lemma run_limits n o l tr e :
  run2 n o l tr e →
  StronglySorted (λ a b, b ≤ a) (request_limits tr) ∧
  Forall (λ x, x ≤ l) (request_limits tr) ∧
  (0 < l → Forall (λ x, 0 < x) (request_limits tr)).
Proof.
  induction 1 as [| n o l evs e Hr | n o l evs o' l' tr e Hr Hrun IH].
  - read_trace. repeat split; constructor.
  - apply round_stop_offsets in Hr as [_ ->].
    repeat split; repeat constructor; lia.
  - apply round_next_inv in Hr as (d & pg & r & T & -> & _ & _ & -> & Hpos & ->).
    read_trace. destruct IH as (Hs & Hb & Hp).
    assert (Forall (λ x, x ≤ l) (request_limits tr)) as Hb'.
    { eapply Forall_impl; [exact Hb|]. simpl. lia. }
    repeat split.
    + by constructor.
    + constructor; [lia|done].
    + intros Hl. constructor; [done|]. apply Hp. lia.
Qed.

Lemma run_shape n o l tr e :
  run2 n o l tr e →
  (∃ body,
     Forall (λ ev, is_completion ev = false) body ∧
     (tr = body ∨ ∃ args, tr = body ++ [OnComplete args])) ∧
  (length (pages tr) ≤ length (request_offsets tr) ≤ S (length (pages tr)))%nat.
Proof.
  induction 1 as [| n o l evs e Hr | n o l evs o' l' tr e Hr Hrun IH].
  - split; [exists []; split; [constructor|by left]|].
    read_trace. simpl. lia.
  - apply round_stop_inv in Hr as [_ Hr]. simpl in Hr.
    destruct Hr as [->|[(a & -> & _)|[(d & pg & ->)|(d & pg & -> & _)]]].
    + split; [eexists; split; [|by left]; by repeat constructor|].
      read_trace. simpl. lia.
    + split; [exists [Request o l (paginated_opts this path o l options)];
              split; [by repeat constructor|right; by eexists]|].
      read_trace. simpl. lia.
    + split; [eexists; split; [|by left]; by repeat constructor|].
      read_trace. simpl. lia.
    + split; [exists [Request o l (paginated_opts this path o l options);
                      OnPage VNull d pg];
              split; [by repeat constructor|right; by eexists]|].
      read_trace. simpl. lia.
  - apply round_next_inv in Hr as (d & pg & r & T & -> & _).
    destruct IH as [(body & Hbody & Htr) Hlen]. split.
    + exists (Request o l (paginated_opts this path o l options)
                :: OnPage VNull d pg :: body).
      split; [by repeat constructor|].
      destruct Htr as [->|[args ->]]; [by left|right; by exists args].
    + read_trace. simpl. lia.
Qed.
End MoreSessions.

(** X8.  The limits of a session's requests never grow: each is at most
    the one before, so at most the caller's, and with a positive limit
    to start from no request is ever made with a limit of 0 or less. *)
Theorem session_limits_shrink_and_stay_positive :
  ∀ fuel this env n path offset limit options callback completed,
    0 < limit →
    let tr := (paginated fuel this env n path offset limit options
                 callback completed).1 in
    StronglySorted (λ a b, b ≤ a) (request_limits tr) ∧
    Forall (λ l, 0 < l ≤ limit) (request_limits tr).
Proof.
  intros * Hpos tr. subst tr.
  destruct (paginated _ _ _ _ _ _ _ _ _ _) as [tr e] eqn:Hp. simpl.
  apply paginated_run, run_limits in Hp as (Hs & Hb & Hp).
  split; [done|]. specialize (Hp Hpos).
  apply Forall_and. by split.
Qed.

Lemma session_limits_shrink_and_stay_positive_witness :
  StronglySorted (λ a b, b ≤ a) [128; 128; 44] ∧
  Forall (λ l, 0 < l ≤ 128) [128; 128; 44].
Proof.
  apply (session_limits_shrink_and_stay_positive 3
           (new_Pivotal (VStr "token")) (limit_echo_server 300) 0
           "projects/1/stories" 0 128 None Function Function).
  lia.
Defined.

(** X9.  In every session [completed] is called at most once and
    nothing happens after it: the trace is free of completions except
    possibly for its last event.  Requests and pages alternate, so
    there is never more than one request whose page is outstanding. *)
Theorem session_completes_at_most_once_and_last :
  ∀ fuel this env n path offset limit options callback completed,
    let tr := (paginated fuel this env n path offset limit options
                 callback completed).1 in
    (∃ body,
       Forall (λ ev, is_completion ev = false) body ∧
       (tr = body ∨ ∃ args, tr = body ++ [OnComplete args])) ∧
    (length (pages tr) ≤ length (request_offsets tr) ≤ S (length (pages tr)))%nat.
Proof.
  intros. subst tr.
  destruct (paginated _ _ _ _ _ _ _ _ _ _) as [tr e] eqn:Hp. simpl.
  by apply paginated_run, run_shape in Hp.
Qed.

(** X10.  A server that keeps answering [returned = 0] while the offset
    is below the total keeps the session going for ever when the caller
    continues: with any amount of fuel the session is out of fuel, has
    asked for the same offset every time and has not called
    [completed]. *)
Theorem session_loops_when_nothing_is_returned :
  ∀ this env path options T offset,
    (∀ k opts, ∃ status res pg,
       transport env k opts = TransportSuccess status res ∧
       get res "pagination" = Some pg ∧ truthy pg = true ∧
       page_field "returned" pg = Some 0 ∧
       page_field "total" pg = Some T) →
    (∀ k data pg, ∃ c, on_page env k data pg = Some c ∧ truthy c = true) →
    offset < T →
    ∀ fuel n limit,
      ∃ tr,
        paginated fuel this env n path offset limit options Function Function
          = (tr, OutOfFuel) ∧
        request_offsets tr = replicate fuel offset ∧
        length (pages tr) = fuel ∧
        completions tr = [].
Proof.
  intros this env path options T offset Hserver Hcaller Hlt.
  induction fuel as [|fuel IH]; intros n limit.
  - by exists [].
  - destruct (Hserver n (paginated_opts this path offset limit options))
      as (status & res & pg & Ht & Hpg & Htr & Hr & HT).
    assert (is_Some (get res "data")) as [data Hd].
    { destruct res; simpl in *; try done; eauto. }
    destruct (Hcaller n data pg) as (c & Hc & Htc).
    rewrite (session_step_continue _ _ _ _ _ _ _ _ _ _ _ _ _ _
               Ht Hpg Htr Hd Hr HT Hc Htc _ offset
               (Z.min (T - offset) limit)); try lia.
    destruct (IH (S n) (Z.min (T - offset) limit))
      as (tr & -> & Hoff & Hlen & Hcompl).
    eexists. split; [done|]. read_trace. rewrite Hoff. simpl.
    by rewrite Hlen, Hcompl.
Qed.

Lemma session_loops_when_nothing_is_returned_witness :
  ∃ tr,
    paginated 7 (new_Pivotal (VStr "token")) (reporting_server (λ _, 0) 5) 0
      "projects/1/stories" 0 128 None Function Function = (tr, OutOfFuel) ∧
    request_offsets tr = replicate 7 0 ∧
    length (pages tr) = 7%nat ∧
    completions tr = [].
Proof.
  apply (session_loops_when_nothing_is_returned
           (new_Pivotal (VStr "token")) (reporting_server (λ _, 0) 5)
           "projects/1/stories" None 5 0).
  - intros k opts.
    exists 200, (page_body [] 0 5),
      (VObj {[ "returned" := VNum 0; "total" := VNum 5 ]}).
    repeat split; reflexivity.
  - intros. by exists (VBool true).
  - lia.
Defined.

(** X12.  A round trip that fails, or that succeeds with a body whose
    [pagination] reads as falsy, ends the session there: [completed] is
    called with the error, or with the body, as its one argument; no
    page is delivered for it and nothing is requested again. *)
Theorem session_ends_on_error_or_malformed_reply :
  ∀ fuel this env n path offset limit options callback arg,
    (∃ message,
       transport env n (paginated_opts this path offset limit options)
         = TransportFailure message ∧
       arg = transport_error message)
    ∨ (∃ status pg,
         transport env n (paginated_opts this path offset limit options)
           = TransportSuccess status arg ∧
         get arg "pagination" = Some pg ∧ truthy pg = false) →
    paginated (S fuel) this env n path offset limit options callback Function
    = ([Request offset limit (paginated_opts this path offset limit options);
        OnComplete [arg]], Settled).
Proof.
  intros * [(message & Ht & ->)|(status & pg & Ht & Hpg & Hf)];
    rewrite paginated_S.
  - by rewrite (round_failure _ _ _ _ _ _ _ _ _ _ Ht).
  - rewrite (round_success _ _ _ _ _ _ _ _ _ _ _ Ht).
    by rewrite (on_response_malformed _ _ _ _ _ pg).
Qed.

Lemma session_ends_on_error_or_malformed_reply_witness :
  paginated 3 (new_Pivotal (VStr "token")) (constant_server (VArr [])) 0
    "projects/1/stories" 0 128 None Function Function
  = ([Request 0 128
        (paginated_opts (new_Pivotal (VStr "token")) "projects/1/stories"
           0 128 None);
      OnComplete [VArr []]], Settled).
Proof.
  apply (session_ends_on_error_or_malformed_reply 2
           (new_Pivotal (VStr "token")) (constant_server (VArr [])) 0
           "projects/1/stories" 0 128 None Function (VArr [])).
  right. exists 200, VUndefined. repeat split; reflexivity.
Defined.

(** ** Paginating a collection *)

Lemma collection_page_slice coll offset limit options :
  options ≫= (λ extra, extra !! "offset") = None →
  options ≫= (λ extra, extra !! "limit") = None →
  collection_page coll (VObj (paginated_qs offset limit options))
  = let items := take (Z.to_nat limit) (drop (Z.to_nat offset) coll) in
    VObj {[ "data" := VArr items;
            "pagination" :=
              VObj {[ "returned" := VNum (Z.of_nat (length items));
                      "total" := VNum (Z.of_nat (length coll));
                      "offset" := VNum offset;
                      "limit" := VNum limit ]} ]}.
Proof.
  intros Ho Hl. unfold collection_page, paginated_qs. simpl.
  rewrite !extend_lookup, Ho, Hl. done.
Qed.

Lemma delivered_items_request o l opts tr :
  delivered_items (Request o l opts :: tr) = delivered_items tr.
Proof. done. Qed.

Lemma delivered_items_page err items pg tr :
  delivered_items (OnPage err (VArr items) pg :: tr)
  = items ++ delivered_items tr.
Proof. done. Qed.

Lemma delivered_items_complete args tr :
  delivered_items (OnComplete args :: tr) = delivered_items tr.
Proof. done. Qed.

Section Collection.
Context (this : Pivotal) (env : environment) (path : string).
Context (options : option (gmap string value)) (coll : list value).

Hypothesis no_offset : options ≫= (λ extra, extra !! "offset") = None.
Hypothesis no_limit : options ≫= (λ extra, extra !! "limit") = None.
Hypothesis serves : ∀ k opts, ∃ status,
  transport env k opts
    = TransportSuccess status
        (collection_page coll (default VUndefined (opts !! "qs"))).
Hypothesis caller_continues :
  ∀ k data pg, ∃ c, on_page env k data pg = Some c ∧ truthy c = true.

Lemma collection_session fuel : ∀ n offset limit,
  0 ≤ offset → 0 < limit →
  (length coll - Z.to_nat offset < fuel)%nat →
  ∃ tr,
    paginated fuel this env n path offset limit options Function Function
      = (tr, Settled) ∧
    delivered_items tr = drop (Z.to_nat offset) coll ∧
    last tr = Some (OnComplete []).
Proof.
  induction fuel as [|fuel IH]; intros n offset limit Hoff Hlim Hfuel; [lia|].
  destruct (serves n (paginated_opts this path offset limit options))
    as [status Ht].
  unfold paginated_opts in Ht at 2. rewrite api_opts_qs in Ht. simpl in Ht.
  rewrite collection_page_slice in Ht by done. cbv zeta in Ht.
  set (items := take (Z.to_nat limit) (drop (Z.to_nat offset) coll)) in *.
  set (pg := VObj {[ "returned" := VNum (Z.of_nat (length items));
                     "total" := VNum (Z.of_nat (length coll));
                     "offset" := VNum offset;
                     "limit" := VNum limit ]}) in *.
  destruct (caller_continues n (VArr items) pg) as (c & Hc & Htc).
  assert (length items = Nat.min (Z.to_nat limit)
                           (length coll - Z.to_nat offset)) as Hlen.
  { unfold items. by rewrite length_take, length_drop. }
  destruct (decide (0 < Z.of_nat (length coll)
                        - (offset + Z.of_nat (length items)))) as [Hmore|Hdone].
  - rewrite (session_step_continue this env n path offset limit options
               status (Z.of_nat (length items)) (Z.of_nat (length coll))
               _ pg (VArr items) c Ht eq_refl eq_refl eq_refl eq_refl eq_refl
               Hc Htc fuel (offset + Z.of_nat (length items))
               (Z.min (Z.of_nat (length coll)
                         - (offset + Z.of_nat (length items))) limit));
      try done.
    destruct (IH (S n) (offset + Z.of_nat (length items))
                (Z.min (Z.of_nat (length coll)
                          - (offset + Z.of_nat (length items))) limit))
      as (tr & -> & Hdel & Hlast); try lia.
    eexists. split; [done|]. split.
    + rewrite delivered_items_request, delivered_items_page, Hdel.
      replace (Z.to_nat (offset + Z.of_nat (length items)))
        with (Z.to_nat offset + Z.to_nat limit)%nat by lia.
      rewrite <- drop_drop. unfold items. apply take_drop.
    + rewrite !last_cons. by rewrite Hlast.
  - rewrite (session_step_exhausted this env n path offset limit options
               status (Z.of_nat (length items)) (Z.of_nat (length coll))
               _ pg (VArr items) c Ht eq_refl eq_refl eq_refl eq_refl eq_refl
               Hc fuel); [|lia].
    eexists. split; [done|]. split; [|done].
    rewrite delivered_items_request, delivered_items_page.
    change (delivered_items [OnComplete []]) with (@nil value).
    rewrite app_nil_r. unfold items. apply take_ge. rewrite length_drop. lia.
Qed.
End Collection.

(** X11.  Against a server that serves a collection by the offset and
    limit of the query and reports its size as the total, with extra
    parameters that name neither, a caller that continues and a
    positive limit, the session ends with [completed()] and the items
    of its pages, in order, are the collection from the starting offset
    on: every item is delivered once, none twice.  An empty collection
    or an offset beyond its end gives one empty page. *)
Theorem session_delivers_the_collection :
  ∀ this env path options coll n offset limit,
    options ≫= (λ extra, extra !! "offset") = None →
    options ≫= (λ extra, extra !! "limit") = None →
    (∀ k opts, ∃ status,
       transport env k opts
         = TransportSuccess status
             (collection_page coll (default VUndefined (opts !! "qs")))) →
    (∀ k data pg, ∃ c, on_page env k data pg = Some c ∧ truthy c = true) →
    0 ≤ offset → 0 < limit →
    ∀ fuel, (length coll < fuel)%nat →
      ∃ tr,
        paginated fuel this env n path offset limit options Function Function
          = (tr, Settled) ∧
        delivered_items tr = drop (Z.to_nat offset) coll ∧
        last tr = Some (OnComplete []) ∧
        ((length coll ≤ Z.to_nat offset)%nat → length (pages tr) = 1%nat).
Proof.
  intros this env path options coll n offset limit Ho Hl Hserves Hcaller
    Hoff Hlim fuel Hfuel.
  destruct (collection_session this env path options coll Ho Hl Hserves
              Hcaller fuel n offset limit) as (tr & Hp & Hdel & Hlast);
    try lia.
  exists tr. repeat split; try done.
  intros Hend. destruct fuel as [|fuel]; [lia|].
  destruct (Hserves n (paginated_opts this path offset limit options))
    as [status Ht].
  unfold paginated_opts in Ht at 2. rewrite api_opts_qs in Ht. simpl in Ht.
  rewrite collection_page_slice in Ht by done. cbv zeta in Ht.
  rewrite (drop_ge coll) in Ht by lia. simpl in Ht.
  rewrite take_nil in Ht. simpl in Ht.
  destruct (Hcaller n (VArr [])
              (VObj {[ "returned" := VNum 0;
                       "total" := VNum (Z.of_nat (length coll));
                       "offset" := VNum offset;
                       "limit" := VNum limit ]})) as (c & Hc & Htc).
  rewrite (session_step_exhausted this env n path offset limit options
             status 0 (Z.of_nat (length coll)) _ _ (VArr []) c Ht
             eq_refl eq_refl eq_refl eq_refl eq_refl Hc fuel) in Hp; [|lia].
  by injection Hp as <-.
Qed.

Lemma session_delivers_the_collection_witness :
  let coll := [VStr "a"; VStr "b"; VStr "c"; VStr "d"; VStr "e"] in
  ∃ tr,
    paginated 6 (new_Pivotal (VStr "token")) (collection_server coll) 0
      "projects/1/stories" 0 2 None Function Function = (tr, Settled) ∧
    delivered_items tr = coll ∧
    last tr = Some (OnComplete []) ∧
    ((length coll ≤ Z.to_nat 0)%nat → length (pages tr) = 1%nat).
Proof.
  intros coll.
  apply (session_delivers_the_collection (new_Pivotal (VStr "token"))
           (collection_server coll) "projects/1/stories" None coll 0%nat 0 2).
  - reflexivity.
  - reflexivity.
  - intros k opts. by exists 200.
  - intros. by exists (VBool true).
  - lia.
  - lia.
  - simpl. lia.
Defined.



(** X14.  The guards of [paginated] test that a callback is truthy, not
    that it is a function: a truthy [onPage] that is no function makes
    the handler throw on a page, and a truthy [onComplete] that is no
    function makes it throw on a failed round trip, where the guard of
    [api] would have called nothing. *)
Theorem session_throws_on_truthy_non_function :
  ∀ fuel this env n path offset limit options callback completed v,
    truthy v = true →
    let opts := paginated_opts this path offset limit options in
    (∀ status res pg,
       transport env n opts = TransportSuccess status res →
       get res "pagination" = Some pg →
       truthy pg = true →
       paginated (S fuel) this env n path offset limit options
         (NotFunction v) completed
       = ([Request offset limit opts], Raised))
    ∧ (∀ message,
         transport env n opts = TransportFailure message →
         paginated (S fuel) this env n path offset limit options
           callback (NotFunction v)
         = ([Request offset limit opts], Raised))
    ∧ (∀ outcome, api_round_trip (NotFunction v) outcome = []).
Proof.
  intros * Hv opts. repeat split.
  - intros status res pg Ht Hpg Htr. rewrite paginated_S.
    destruct (round_page this env n path offset limit options
                (NotFunction v) completed status res pg)
      as (data & _ & ->); try done.
    simpl. by rewrite Hv.
  - intros message Ht. rewrite paginated_S.
    rewrite (round_failure _ _ _ _ _ _ _ _ _ _ Ht). simpl. by rewrite Hv.
  - by intros [].
Qed.

Lemma session_throws_on_truthy_non_function_witness :
  paginated 3 (new_Pivotal (VStr "token")) (reporting_server (λ _, 2) 5) 0
    "projects/1/stories" 0 128 None (NotFunction (VStr "onPage")) Function
  = ([Request 0 128
        (paginated_opts (new_Pivotal (VStr "token")) "projects/1/stories"
           0 128 None)], Raised).
Proof.
  refine (proj1
    (session_throws_on_truthy_non_function 2 (new_Pivotal (VStr "token"))
       (reporting_server (λ _, 2) 5) 0 "projects/1/stories" 0 128 None
       Function Function (VStr "onPage") _)
    200 (page_body [] 2 5)
    (VObj {[ "returned" := VNum 2; "total" := VNum 5 ]}) _ _ _);
    reflexivity.
Defined.


